(** * The polling transcript connector (pmotool/connectors/simple_watcher.py)

    A shallow embedding of [watch_and_post]: a polling loop that lists a
    directory, probes every new [.txt] entry for a stable size, reads it,
    POSTs it to a webhook and moves it into a [processed] subdirectory.

    The operating system, the clock and the HTTP endpoint are an interface
    ([OS]); the program is written in a small monad that threads the state of
    that interface, propagates Python exceptions and records every call the
    program makes together with its outcome.  A POSIX instance of the
    interface ([Posix]) gives the program something to run on. *)

From Stdlib Require Import ZArith NArith String Ascii List Sorted Permutation.
From stdpp Require Import gmap strings list sorting.

Local Open Scope string_scope.
Local Open Scope Z_scope.
Local Open Scope list_scope.

(** ** Python exceptions and results *)

Inductive exn :=
  | FileNotFoundError | PermissionError | NotADirectoryError | IsADirectoryError
  | FileExistsError | OSError
  | UnicodeDecodeError | ValueError
  | ConnectionError | Timeout
  | KeyboardInterrupt | SystemExit.

#[global] Instance exn_eq_dec : EqDecision exn.
Proof. solve_decision. Defined.

(** [except Exception] catches every class but the two that derive from
    [BaseException] only. *)
Definition is_Exception (e : exn) : bool :=
  match e with
  | KeyboardInterrupt | SystemExit => false
  | _ => true
  end.

Inductive result (A : Type) :=
  | Ok (a : A)
  | Raise (e : exn).
Arguments Ok {A} a.
Arguments Raise {A} e.

(** ** Data passed to and from the environment *)

Record payload := {
  meeting_id : string;
  title : string;
  transcript : string;
  attendees : list string;
  stage_flag : bool
}.

Record response := { status_code : Z; text : string }.

Record datetime := {
  year : N; month : N; day : N;
  hour : N; minute : N; second : N; microsecond : N
}.

(** Every call the program makes on its environment, with what came back. *)
Inductive event :=
  | EvAbspath (p : string) (r : result string)
  | EvExists (p : string) (r : result bool)
  | EvMakedirs (p : string) (r : result unit)
  | EvListdir (p : string) (r : result (list string))
  | EvGetsize (p : string) (r : result Z)
  | EvSleep (ms : Z) (r : result unit)
  | EvRead (p : string) (r : result string)
  | EvPost (url : string) (body : payload) (timeout : Z) (r : result response)
  | EvUtcnow (r : result datetime)
  | EvRename (src dst : string) (r : result unit)
  | EvLog (msg : string) (r : result unit).

(** A logged call carries the loop variable [full] of the iteration of the
    [for] loop that made it ([None] outside the [for] loop). *)
Definition entry : Type := option string * event.

(** ** The environment *)

Class OS (W : Type) := {
  os_abspath : string → W → result string * W;
  os_exists : string → W → result bool * W;
  os_makedirs : string → W → result unit * W;
  os_listdir : string → W → result (list string) * W;
  os_getsize : string → W → result Z * W;
  time_sleep : Z → W → result unit * W;
  read_text : string → W → result string * W;
  requests_post : string → payload → Z → W → result response * W;
  utcnow : W → result datetime * W;
  os_rename : string → string → W → result unit * W;
  logger_info : string → W → result unit * W
}.

(** ** The monad: environment state, exceptions, call log *)

Definition M (W A : Type) : Type := W → result A * W * list entry.

Definition ret {W A} (a : A) : M W A := λ w, (Ok a, w, []).

Definition bind {W A B} (m : M W A) (k : A → M W B) : M W B :=
  λ w, match m w with
       | (Ok a, w1, t1) =>
           match k a w1 with (r, w2, t2) => (r, w2, t1 ++ t2) end
       | (Raise e, w1, t1) => (Raise e, w1, t1)
       end.

(** [try: m except <classes in catches>: h] *)
Definition try_except {W A} (m : M W A) (catches : exn → bool)
    (h : exn → M W A) : M W A :=
  λ w, match m w with
       | (Ok a, w1, t1) => (Ok a, w1, t1)
       | (Raise e, w1, t1) =>
           if catches e
           then match h e w1 with (r, w2, t2) => (r, w2, t1 ++ t2) end
           else (Raise e, w1, t1)
       end.

(** One call on the environment, logged with its outcome. *)
Definition perform {W A} (op : W → result A * W) (ev : result A → event)
    : M W A :=
  λ w, match op w with (r, w1) => (r, w1, [(None, ev r)]) end.

(** Calls made while [m] runs are attributed to the entry [full]. *)
Definition on_entry {W A} (full : string) (m : M W A) : M W A :=
  λ w, match m w with
       | (r, w1, t) => (r, w1, map (λ e : entry, (Some full, e.2)) t)
       end.

Declare Scope prog_scope.
Delimit Scope prog_scope with prog.
Notation "x <- m ;; k" := (bind m (λ x, k))
  (at level 100, m at next level, right associativity) : prog_scope.
Notation "m ;;; k" := (bind m (λ _, k))
  (at level 100, right associativity) : prog_scope.

(** ** String and path functions of the Python library the code calls *)

Definition is_upper (c : ascii) : bool :=
  (65 <=? nat_of_ascii c)%nat && (nat_of_ascii c <=? 90)%nat.

(** [str.lower] on a file name held as bytes: the letters A..Z change, every
    other byte stays. *)
Definition lower_ascii (c : ascii) : ascii :=
  if is_upper c then ascii_of_nat (nat_of_ascii c + 32) else c.

Fixpoint lower (s : string) : string :=
  match s with
  | EmptyString => EmptyString
  | String c s' => String (lower_ascii c) (lower s')
  end.

Fixpoint startswith (s pre : string) : bool :=
  match pre, s with
  | EmptyString, _ => true
  | String _ _, EmptyString => false
  | String a pre', String b s' => if Ascii.eqb a b then startswith s' pre' else false
  end.

(** [s.endswith(suf)]: some tail of [s] is [suf]. *)
Fixpoint endswith (s suf : string) : bool :=
  String.eqb s suf ||
  match s with
  | EmptyString => false
  | String _ s' => endswith s' suf
  end.

(** *** The order of names

    [os.listdir] returns [str] objects: the bytes of a name decoded as
    UTF-8 with the [surrogateescape] handler, under which a byte that is not
    part of a well-formed sequence becomes the lone surrogate U+DC00 +
    byte.  [sorted] compares these objects code point by code point, which
    is not the order of the bytes once a name holds such a byte. *)

(** The payload bits of a leading byte and the ranges the bytes after it
    must lie in. *)
Definition lead_byte (b : N) : option (N * list (N * N)) :=
  let cont := (128, 191)%N in
  if (b <=? 127)%N then Some (b, [])
  else if (b <? 194)%N then None
  else if (b <=? 223)%N then Some (b - 192, [cont])%N
  else if (b =? 224)%N then Some (0, [(160, 191); cont])%N
  else if (b =? 237)%N then Some (13, [(128, 159); cont])%N
  else if (b <=? 239)%N then Some (b - 224, [cont; cont])%N
  else if (b =? 240)%N then Some (0, [(144, 191); cont; cont])%N
  else if (b <=? 243)%N then Some (b - 240, [cont; cont; cont])%N
  else if (b =? 244)%N then Some (4, [(128, 143); cont; cont])%N
  else None.

Definition escape (b : N) : N := (56320 + b)%N.

(** A sequence under way: the bytes read, the bits gathered, the ranges
    still to come. *)
Record partial := { raw : list N; bits : N; need : list (N * N) }.

Definition start_byte (b : N) : list N * option partial :=
  match lead_byte b with
  | Some (v, []) => ([v], None)
  | Some (v, rs) => ([], Some {| raw := [b]; bits := v; need := rs |})
  | None => ([escape b], None)
  end.

Fixpoint fsdecode_from (st : option partial) (s : string) : list N :=
  match s with
  | EmptyString =>
      match st with
      | Some p => map escape (raw p)
      | None => []
      end
  | String c s' =>
      let b := N_of_ascii c in
      match st with
      | Some {| raw := r; bits := v; need := (lo, hi) :: rs |} =>
          if (lo <=? b)%N && (b <=? hi)%N
          then
            let v' := (v * 64 + b mod 64)%N in
            match rs with
            | [] => v' :: fsdecode_from None s'
            | _ => fsdecode_from
                     (Some {| raw := r ++ [b]; bits := v'; need := rs |}) s'
            end
          else
            match start_byte b with
            | (out, st') => map escape r ++ out ++ fsdecode_from st' s'
            end
      | _ =>
          match start_byte b with
          | (out, st') => out ++ fsdecode_from st' s'
          end
      end
  end.

(** The code points of the [str] that [os.listdir] returns for a name. *)
Definition fsdecode (name : string) : list N := fsdecode_from None name.

Fixpoint lex_leb (a b : list N) : bool :=
  match a, b with
  | [], _ => true
  | _ :: _, [] => false
  | x :: a', y :: b' => (x <? y)%N || ((x =? y)%N && lex_leb a' b')
  end.

(** [a <= b] on [str]. *)
Definition name_le (a b : string) : Prop :=
  lex_leb (fsdecode a) (fsdecode b) = true.

#[global] Instance name_le_dec : RelDecision name_le.
Proof. intros a b. unfold name_le. apply _. Defined.

(** [sorted(files)] *)
Definition sorted (l : list string) : list string := merge_sort name_le l.

(** [posixpath.join(a, b)] *)
Definition path_join (a b : string) : string :=
  if startswith b "/" then b
  else if (String.eqb a "" || endswith a "/")%bool then a +:+ b
  else a +:+ "/" +:+ b.

(** [posixpath.splitext(p)[0]]: cut at the last dot of the last component,
    unless only dots precede it there. *)
Fixpoint rfind_from (c : ascii) (s : string) (i : nat) (last : option nat)
    : option nat :=
  match s with
  | EmptyString => last
  | String d s' =>
      rfind_from c s' (S i) (if Ascii.eqb c d then Some i else last)
  end.

Definition rfind (c : ascii) (s : string) : option nat := rfind_from c s 0 None.

Fixpoint all_dots (s : string) : bool :=
  match s with
  | EmptyString => true
  | String c s' => if Ascii.eqb c "." then all_dots s' else false
  end.

Definition splitext_root (p : string) : string :=
  let name_start := match rfind "/" p with Some i => S i | None => 0%nat end in
  match rfind "." p with
  | Some dot =>
      if (name_start <=? dot)%nat
      then if all_dots (String.substring name_start (dot - name_start) p)
           then p
           else String.substring 0 dot p
      else p
  | None => p
  end.

(** [strftime('%Y%m%dT%H%M%SZ')] *)
Definition digit (n : N) : ascii := ascii_of_N (48 + n mod 10).

Definition pad2 (n : N) : string :=
  String (digit (n / 10)) (String (digit n) "").

Definition pad4 (n : N) : string :=
  String (digit (n / 1000)) (String (digit (n / 100)) (pad2 n)).

Definition strftime (d : datetime) : string :=
  pad4 (year d) +:+ pad2 (month d) +:+ pad2 (day d) +:+ "T" +:+
  pad2 (hour d) +:+ pad2 (minute d) +:+ pad2 (second d) +:+ "Z".

(** ** The program *)

Definition DEFAULT_POLL_INTERVAL : Z := 5.

Section Watcher.
Context {W : Type} `{OS W}.

(** [os.path.commonpath] of the platform.  It is a pure function of its
    arguments; [None] stands for its failures ([ValueError], [TypeError]),
    all of them subclasses of [Exception]. *)
Variable commonpath : list string → option string.

Local Open Scope prog_scope.

Definition abspath (p : string) : M W string :=
  perform (os_abspath p) (EvAbspath p).
Definition path_exists (p : string) : M W bool :=
  perform (os_exists p) (EvExists p).
Definition makedirs (p : string) : M W unit :=
  perform (os_makedirs p) (EvMakedirs p).
Definition listdir (p : string) : M W (list string) :=
  perform (os_listdir p) (EvListdir p).
Definition getsize (p : string) : M W Z :=
  perform (os_getsize p) (EvGetsize p).
Definition sleep (ms : Z) : M W unit :=
  perform (time_sleep ms) (EvSleep ms).
Definition open_read (p : string) : M W string :=
  perform (read_text p) (EvRead p).
Definition post (url : string) (body : payload) (timeout : Z) : M W response :=
  perform (requests_post url body timeout) (EvPost url body timeout).
Definition now : M W datetime :=
  perform utcnow EvUtcnow.
Definition rename (src dst : string) : M W unit :=
  perform (os_rename src dst) (EvRename src dst).

(** Of the calls of the logger only the one on line 114 is a call of the
    model: it runs in the handler of [KeyboardInterrupt] with no [try]
    around it, so what it raises leaves the function.  The other calls of
    the logger are taken to return: [logging] reports the errors of its
    handlers itself. *)
Definition log_info (msg : string) : M W unit :=
  perform (logger_info msg) (EvLog msg).

Definition ensure_dir (path : string) : M W unit :=
  e <- path_exists path ;;
  if e then ret tt else makedirs path.

(** The arguments of [watch_and_post] that stay fixed while it runs;
    [directory] is the absolute path computed on entry. *)
Variables (directory webhook_url : string) (stage : bool)
          (poll_interval : Z) (processed_dir_name : string).

Definition processed_dir : string := path_join directory processed_dir_name.

Definition is_txt (f : string) : bool := endswith (lower f) ".txt".

(** Lines 52-57: [True] when the iteration is left by the first
    [continue]; a failing [commonpath] is passed over. *)
Definition in_processed (full : string) : bool :=
  match commonpath [full; processed_dir] with
  | Some c => String.eqb c processed_dir
  | None => false
  end.

(** Lines 61-69: [True] when both sizes were read and are equal. *)
Definition stable (full : string) : M W bool :=
  try_except
    (size1 <- getsize full ;;
     sleep 200 ;;;
     size2 <- getsize full ;;
     ret (size1 =? size2))
    is_Exception
    (λ _, ret false).

(** Lines 72-78. *)
Definition read_transcript (full : string) : M W (option string) :=
  try_except
    (t <- open_read full ;; ret (Some t))
    is_Exception
    (λ _, ret None).

Definition build_payload (mid text : string) : payload :=
  {| meeting_id := mid; title := mid; transcript := text;
     attendees := []; stage_flag := stage |}.

Definition archive_name (mid : string) (d : datetime) : string :=
  mid +:+ "." +:+ strftime d +:+ ".txt".

(** Lines 89-108: [True] when control reaches [seen.add(full)] on line
    110, [False] when the iteration is left by a [continue]. *)
Definition post_and_archive (full mid : string) (body : payload) : M W bool :=
  try_except
    (resp <- post webhook_url body 10 ;;
     if (200 <=? status_code resp) && (status_code resp <? 300)
     then
       d <- now ;;
       let dest := path_join processed_dir (archive_name mid d) in
       try_except (rename full dest) is_Exception (λ _, ret tt) ;;;
       ret true
     else ret false)
    is_Exception
    (λ _, ret false).

(** Lines 60-110: the part of the loop body after the two skips. *)
Definition deliver (seen : gset string) (fn full : string) : M W (gset string) :=
  ok <- stable full ;;
  if negb ok then ret seen
  else
    r <- read_transcript full ;;
    match r with
    | None => ret (seen ∪ {[full]})
    | Some text =>
        let mid := splitext_root fn in
        sent <- post_and_archive full mid (build_payload mid text) ;;
        if sent then ret (seen ∪ {[full]}) else ret seen
    end.

(** Lines 50-110: one iteration of [for fn in sorted(files)]; the result
    is the set [seen] after it. *)
Definition process_entry (seen : gset string) (fn : string) : M W (gset string) :=
  let full := path_join directory fn in
  if in_processed full then ret seen
  else if decide (full ∈ seen) then ret seen
  else on_entry full (deliver seen fn full).

Fixpoint for_each (files : list string) (seen : gset string) : M W (gset string) :=
  match files with
  | [] => ret seen
  | fn :: rest => seen' <- process_entry seen fn ;; for_each rest seen'
  end.

(** Lines 42-47. *)
Definition list_txt : M W (list string) :=
  try_except
    (names <- listdir directory ;; ret (filter (λ f, is_txt f = true) names))
    (λ e, bool_decide (e = FileNotFoundError))
    (λ _, ensure_dir directory ;;; ret []).

(** Lines 42-112: one pass of the body of [while True]. *)
Definition cycle (seen : gset string) : M W (gset string) :=
  files <- list_txt ;;
  seen' <- for_each (sorted files) seen ;;
  sleep (poll_interval * 1000) ;;;
  ret seen'.

(** [n] passes of [while True]. *)
Fixpoint cycles (n : nat) (seen : gset string) : M W (gset string) :=
  match n with
  | O => ret seen
  | S n' => seen' <- cycle seen ;; cycles n' seen'
  end.
End Watcher.

(** What [watch_and_post] has done after at most [n] passes of its loop:
    it is still looping, or it has returned after a [KeyboardInterrupt]. *)
Inductive status :=
  | Looping (seen : gset string)
  | Returned.

Section Entry.
Context {W : Type} `{OS W}.
Variable commonpath : list string → option string.
Local Open Scope prog_scope.

(** Lines 37-114, the loop cut after [n] passes. *)
Definition watch_loop (n : nat) (directory webhook_url : string) (stage : bool)
    (poll_interval : Z) (processed_dir_name : string) : M W status :=
  try_except
    (seen <- cycles commonpath directory webhook_url stage poll_interval
               processed_dir_name n ∅ ;;
     ret (Looping seen))
    (λ e, bool_decide (e = KeyboardInterrupt))
    (λ _, log_info "Watcher stopped by user" ;;; ret Returned).

Definition watch_and_post (n : nat) (dir webhook_url : string) (stage : bool)
    (poll_interval : Z) (processed_dir_name : string) : M W status :=
  directory <- abspath dir ;;
  let processed := processed_dir directory processed_dir_name in
  ensure_dir directory ;;;
  ensure_dir processed ;;;
  watch_loop n directory webhook_url stage poll_interval processed_dir_name.
End Entry.

(** ** A POSIX environment

    Paths map to regular files, directories and symbolic links; other
    processes act while the program sleeps; the clock and the endpoint
    answer from scripts.  FIFOs, sockets and devices are not entries of
    this file system: opening a FIFO does not return while nobody writes
    to it, and every call of this environment returns. *)

Module Posix.

Inductive node :=
  | File (bytes : string) (readable : bool)
  | Dir (readable : bool)
  | Link (target : string).

(** What happens outside the program during one call of [time.sleep]. *)
Inductive outside :=
  | Idle
  | Put (p : string) (n : node)
  | Unlink (p : string)
  | Interrupt.

Record world := {
  cwd : string;
  fs : gmap string node;
  clock : list datetime;
  endpoint : list (result response);
  others : list outside
}.

Definition epoch : datetime :=
  {| year := 1970; month := 1; day := 1;
     hour := 0; minute := 0; second := 0; microsecond := 0 |}.

(** *** Strings *)

Fixpoint split_from (s cur : string) : list string :=
  match s with
  | EmptyString => [cur]
  | String c s' =>
      if Ascii.eqb c "/" then cur :: split_from s' ""
      else split_from s' (cur +:+ String c "")
  end.

(** [s.split('/')] *)
Definition split_sep (s : string) : list string := split_from s "".

(** ['/'.join(l)] *)
Fixpoint join_sep (l : list string) : string :=
  match l with
  | [] => ""
  | [c] => c
  | c :: rest => c +:+ "/" +:+ join_sep rest
  end.

Definition has_sep (s : string) : bool :=
  match rfind "/" s with Some _ => true | None => false end.

Definition real_comp (c : string) : bool :=
  negb (String.eqb c "") && negb (String.eqb c ".").

(** [posixpath.normpath] *)
Definition norm_step (anchored : bool) (stack : list string) (comp : string)
    : list string :=
  if negb (real_comp comp) then stack
  else if negb (String.eqb comp "..") then comp :: stack
  else match stack with
       | [] => if anchored then [] else [comp]
       | top :: below => if String.eqb top ".." then comp :: stack else below
       end.

Definition normpath (path : string) : string :=
  if String.eqb path "" then "."
  else
    let slashes :=
      if startswith path "///" then "/"
      else if startswith path "//" then "//"
      else if startswith path "/" then "/"
      else "" in
    let anchored := negb (String.eqb slashes "") in
    let comps := rev (fold_left (norm_step anchored) (split_sep path) []) in
    let out := slashes +:+ join_sep comps in
    if String.eqb out "" then "." else out.

(** [posixpath.commonpath]: the longest common prefix of the component
    lists, which is what comparing the least and the greatest list gives. *)
Fixpoint common_prefix (a b : list string) : list string :=
  match a, b with
  | x :: a', y :: b' => if String.eqb x y then x :: common_prefix a' b' else []
  | _, _ => []
  end.

Definition comps (p : string) : list string :=
  filter (λ c, real_comp c = true) (split_sep p).

Definition commonpath (paths : list string) : option string :=
  match paths with
  | [] => None
  | p :: rest =>
      let isabs := startswith p "/" in
      if forallb (λ q, Bool.eqb (startswith q "/") isabs) rest
      then Some ((if isabs then "/" else "") +:+
                 join_sep (fold_left common_prefix (map comps rest) (comps p)))
      else None
  end.

(** *** Text files: strict UTF-8 with universal newlines *)

Definition cont : N * N := (128, 191)%N.

(** The ranges the bytes after a leading byte must lie in. *)
Definition lead (b : N) : option (list (N * N)) :=
  if (b <=? 127)%N then Some []
  else if (b <? 194)%N then None
  else if (b <=? 223)%N then Some [cont]
  else if (b =? 224)%N then Some [(160, 191)%N; cont]
  else if (b =? 237)%N then Some [(128, 159)%N; cont]
  else if (b <=? 239)%N then Some [cont; cont]
  else if (b =? 240)%N then Some [(144, 191)%N; cont; cont]
  else if (b <=? 243)%N then Some [cont; cont; cont]
  else if (b =? 244)%N then Some [(128, 143)%N; cont; cont]
  else None.

Fixpoint utf8_from (need : list (N * N)) (s : string) : bool :=
  match s with
  | EmptyString => match need with [] => true | _ => false end
  | String c s' =>
      let b := N_of_ascii c in
      match need with
      | (lo, hi) :: need' => (lo <=? b)%N && (b <=? hi)%N && utf8_from need' s'
      | [] => match lead b with
              | Some need' => utf8_from need' s'
              | None => false
              end
      end
  end.

Definition utf8_valid (s : string) : bool := utf8_from [] s.

Definition CR : ascii := ascii_of_N 13.
Definition LF : ascii := ascii_of_N 10.

Fixpoint newlines (s : string) : string :=
  match s with
  | EmptyString => EmptyString
  | String c s' =>
      if Ascii.eqb c CR
      then match s' with
           | String d s'' =>
               if Ascii.eqb d LF then String LF (newlines s'')
               else String LF (newlines s')
           | EmptyString => String LF EmptyString
           end
      else String c (newlines s')
  end.

Definition decode (bytes : string) : option string :=
  if utf8_valid bytes then Some (newlines bytes) else None.

(** *** The calls *)

Definition set_fs (w : world) (f : gmap string node) : world :=
  {| cwd := cwd w; fs := f; clock := clock w;
     endpoint := endpoint w; others := others w |}.

Definition dirname (p : string) : string :=
  match rfind "/" p with
  | Some O => "/"
  | Some i => String.substring 0 i p
  | None => ""
  end.

Definition with_slash (d : string) : string :=
  if endswith d "/" then d else d +:+ "/".

Definition strip_prefix (pre k : string) : option string :=
  if startswith k pre
  then Some (String.substring (String.length pre)
               (String.length k - String.length pre) k)
  else None.

Definition child_name (d k : string) : option string :=
  match strip_prefix (with_slash d) k with
  | Some name =>
      if String.eqb name "" || has_sep name then None else Some name
  | None => None
  end.

Definition children (d : string) (f : gmap string node) : list string :=
  omap (child_name d) (map fst (map_to_list f)).

Definition under (d k : string) : bool :=
  match strip_prefix (with_slash d) k with
  | Some rest => negb (String.eqb rest "")
  | None => false
  end.

Definition abspath (p : string) (w : world) : result string * world :=
  (Ok (normpath (if startswith p "/" then p else path_join (cwd w) p)), w).

(** Where the symbolic link at [p] points. *)
Definition target_path (p t : string) : string :=
  normpath (path_join (dirname p) t).

(** The kernel follows 40 links, then gives up with [ELOOP]. *)
Definition max_links : nat := 40.

(** The path and the entry that [p] names once the link at [p], and the
    links it leads to, are followed.  The map is keyed by whole paths: a
    link is followed where the path itself names it, not where it is a
    directory on the way to the entry. *)
Fixpoint follow (fuel : nat) (f : gmap string node) (p : string)
    : result (string * node) :=
  match f !! p with
  | None => Raise FileNotFoundError
  | Some (Link t) =>
      match fuel with
      | O => Raise OSError
      | S k => follow k f (target_path p t)
      end
  | Some n => Ok (p, n)
  end.

(** What [stat] and [open] find at [p]. *)
Definition stat (f : gmap string node) (p : string) : result (string * node) :=
  follow max_links f p.

(** [os.path.exists] is [stat]: false of a link that leads nowhere. *)
Definition exists_ (p : string) (w : world) : result bool * world :=
  (Ok (match stat (fs w) p with Ok _ => true | Raise _ => false end), w).

(** The proper prefixes of [p] that end before a separator, then [p]. *)
Fixpoint ancestors_from (s done : string) : list string :=
  match s with
  | EmptyString => [done]
  | String c s' =>
      if Ascii.eqb c "/" && negb (String.eqb done "")
      then done :: ancestors_from s' (done +:+ "/")
      else ancestors_from s' (done +:+ String c "")
  end.

Fixpoint mkdir_all (ps : list string) (f : gmap string node)
    : result (gmap string node) :=
  match ps with
  | [] => Ok f
  | p :: rest =>
      match f !! p with
      | None => mkdir_all rest (<[p := Dir true]> f)
      | Some (Dir _) => mkdir_all rest f
      | Some (File _ _) =>
          match rest with
          | [] => Raise FileExistsError
          | _ => Raise NotADirectoryError
          end
      | Some (Link _) =>
          match stat f p, rest with
          | Ok (_, Dir _), _ => mkdir_all rest f
          | _, [] => Raise FileExistsError
          | Ok _, _ => Raise NotADirectoryError
          | Raise e, _ => Raise e
          end
      end
  end.

(** [os.makedirs(p, exist_ok=True)] *)
Definition makedirs (p : string) (w : world) : result unit * world :=
  match mkdir_all (ancestors_from p "") (fs w) with
  | Ok f => (Ok tt, set_fs w f)
  | Raise e => (Raise e, w)
  end.

Definition listdir (p : string) (w : world) : result (list string) * world :=
  match stat (fs w) p with
  | Ok (q, Dir true) => (Ok (children q (fs w)), w)
  | Ok (_, Dir false) => (Raise PermissionError, w)
  | Ok (_, File _ _) => (Raise NotADirectoryError, w)
  | Ok (_, Link _) => (Raise OSError, w)
  | Raise e => (Raise e, w)
  end.

(** [os.path.getsize] is [stat]: it needs no permission on the entry, and
    it follows a symbolic link. *)
Definition getsize (p : string) (w : world) : result Z * world :=
  match stat (fs w) p with
  | Ok (_, File bytes _) => (Ok (Z.of_nat (String.length bytes)), w)
  | Ok (_, Dir _) => (Ok 4096, w)
  | Ok (_, Link _) => (Raise OSError, w)
  | Raise e => (Raise e, w)
  end.

Definition sleep (ms : Z) (w : world) : result unit * world :=
  if ms <? 0 then (Raise ValueError, w)
  else
    match others w with
    | [] => (Ok tt, w)
    | act :: rest =>
        let w' := {| cwd := cwd w; fs := fs w; clock := clock w;
                     endpoint := endpoint w; others := rest |} in
        match act with
        | Idle => (Ok tt, w')
        | Put p n => (Ok tt, set_fs w' (<[p := n]> (fs w)))
        | Unlink p => (Ok tt, set_fs w' (delete p (fs w)))
        | Interrupt => (Raise KeyboardInterrupt, w')
        end
    end.

(** [open(p, 'r', encoding='utf-8')] followed by [read()] *)
Definition read (p : string) (w : world) : result string * world :=
  match stat (fs w) p with
  | Ok (_, File bytes true) =>
      match decode bytes with
      | Some s => (Ok s, w)
      | None => (Raise UnicodeDecodeError, w)
      end
  | Ok (_, File _ false) => (Raise PermissionError, w)
  | Ok (_, Dir _) => (Raise IsADirectoryError, w)
  | Ok (_, Link _) => (Raise OSError, w)
  | Raise e => (Raise e, w)
  end.

Definition post (url : string) (body : payload) (timeout : Z) (w : world)
    : result response * world :=
  match endpoint w with
  | [] => (Raise ConnectionError, w)
  | r :: rest =>
      (r, {| cwd := cwd w; fs := fs w; clock := clock w;
             endpoint := rest; others := others w |})
  end.

Definition now (w : world) : result datetime * world :=
  match clock w with
  | [] => (Ok epoch, w)
  | d :: rest =>
      (Ok d, {| cwd := cwd w; fs := fs w; clock := rest;
                endpoint := endpoint w; others := others w |})
  end.

(** Moving a directory moves what is below it. *)
Definition rekey (src dst : string) (kv : string * node) : string * node :=
  match strip_prefix (with_slash src) kv.1 with
  | Some rest => (with_slash dst +:+ rest, kv.2)
  | None => kv
  end.

Definition has_children (d : string) (f : gmap string node) : bool :=
  existsb (under d) (map fst (map_to_list f)).

(** [os.rename(src, dst)]: an existing file at [dst] is replaced.  A
    symbolic link at [src] or [dst] is moved or replaced itself, not what it
    points to. *)
Definition rename (src dst : string) (w : world) : result unit * world :=
  match fs w !! src with
  | None => (Raise FileNotFoundError, w)
  | Some n =>
      match stat (fs w) (dirname dst) with
      | Raise e => (Raise e, w)
      | Ok (_, File _ _) | Ok (_, Link _) => (Raise NotADirectoryError, w)
      | Ok (_, Dir _) =>
          match n, fs w !! dst with
          | File _ _, Some (Dir _) | Link _, Some (Dir _) =>
              (Raise IsADirectoryError, w)
          | Dir _, Some (File _ _) | Dir _, Some (Link _) =>
              (Raise NotADirectoryError, w)
          | File _ _, _ | Link _, _ =>
              (Ok tt, set_fs w (<[dst := n]> (delete src (fs w))))
          | Dir _, _ =>
              if has_children dst (fs w) then (Raise OSError, w)
              else (Ok tt, set_fs w (<[dst := n]>
                      (list_to_map (map (rekey src dst)
                         (map_to_list (delete src (fs w)))))))
          end
      end
  end.

(** Nothing happens to [p] during the next call of [time.sleep], and the
    call is not interrupted. *)
Definition calm (w : world) (p : string) : Prop :=
  match others w with
  | [] | Idle :: _ => True
  | Put q _ :: _ | Unlink q :: _ => q ≠ p
  | Interrupt :: _ => False
  end.

(** No other process changes the file system during the next call of
    [time.sleep], and the call is not interrupted. *)
Definition still (w : world) : Prop :=
  match others w with
  | [] | Idle :: _ => True
  | _ => False
  end.

(** A directory, or a regular file closed to reading. *)
Definition unreadable (n : node) : Prop :=
  match n with
  | Dir _ => True
  | File _ r => r = false
  | Link _ => False
  end.

(** A symbolic link at [p] whose target does not exist. *)
Definition dangling (w : world) (p : string) : Prop :=
  ∃ t, fs w !! p = Some (Link t) ∧ fs w !! target_path p t = None.

#[global] Instance posix : OS world := {|
  os_abspath := abspath;
  os_exists := exists_;
  os_makedirs := makedirs;
  os_listdir := listdir;
  os_getsize := getsize;
  time_sleep := sleep;
  read_text := read;
  requests_post := post;
  utcnow := now;
  os_rename := rename;
  logger_info := λ _ w, (Ok tt, w)
|}.

End Posix.

(** ** An environment that interrupts

    The user presses Ctrl-C at once: every call raises
    [KeyboardInterrupt]. *)

#[global] Instance interrupted : OS unit := {|
  os_abspath := λ _ w, (Raise KeyboardInterrupt, w);
  os_exists := λ _ w, (Raise KeyboardInterrupt, w);
  os_makedirs := λ _ w, (Raise KeyboardInterrupt, w);
  os_listdir := λ _ w, (Raise KeyboardInterrupt, w);
  os_getsize := λ _ w, (Raise KeyboardInterrupt, w);
  time_sleep := λ _ w, (Raise KeyboardInterrupt, w);
  read_text := λ _ w, (Raise KeyboardInterrupt, w);
  requests_post := λ _ _ _ w, (Raise KeyboardInterrupt, w);
  utcnow := λ w, (Raise KeyboardInterrupt, w);
  os_rename := λ _ _ w, (Raise KeyboardInterrupt, w);
  logger_info := λ _ w, (Raise KeyboardInterrupt, w)
|}.

(** ** What a run leaves behind *)

Definition outcome {W A} (x : result A * W * list entry) : result A := x.1.1.
Definition final {W A} (x : result A * W * list entry) : W := x.1.2.
Definition trace {W A} (x : result A * W * list entry) : list entry := x.2.

Definition is_read (e : event) : bool :=
  match e with EvRead _ _ => true | _ => false end.
Definition is_post (e : event) : bool :=
  match e with EvPost _ _ _ _ => true | _ => false end.
Definition is_rename (e : event) : bool :=
  match e with EvRename _ _ _ => true | _ => false end.

(** The calls that make up a delivery: read, POST, archive. *)
Definition is_delivery (e : event) : bool :=
  is_read e || is_post e || is_rename e.

(** The call names the path [p] as the file it works on. *)
Definition touches (p : string) (e : event) : bool :=
  match e with
  | EvGetsize q _ | EvRead q _ | EvRename q _ _ => String.eqb q p
  | _ => false
  end.

Definition success (code : Z) : bool := (200 <=? code) && (code <? 300).

(** ** The vocabulary of the statements *)

(** The character is the letter in one of its two cases. *)
Definition letter (lo up x : ascii) : Prop := x = lo ∨ x = up.

(** The name ends in [.txt] when the case of the extension is ignored. *)
Definition txt_name (f : string) : Prop :=
  ∃ stem a b c,
    f = stem +:+ String "." (String a (String b (String c ""))) ∧
    letter "t" "T" a ∧ letter "x" "X" b ∧ letter "t" "T" c.

(** The path is written in normal form: a separator, then its components
    with one separator between them, none of them [..]. *)
Definition normal_path (p : string) : Prop :=
  p = "/" +:+ Posix.join_sep (Posix.comps p) ∧
  forallb (λ c, negb (String.eqb c "..")) (Posix.comps p) = true.

(** The path lies inside the directory, or is the directory: the
    components of the directory are the leading components of the path. *)
Definition lies_inside (full dir : string) : Prop :=
  Posix.comps dir `prefix_of` Posix.comps full.

(** The two size probes of [full] disagreed, or one of them raised. *)
Definition probe_failed (full : string) (t : list entry) : Prop :=
  (∃ e, is_Exception e = true ∧ (Some full, EvGetsize full (Raise e)) ∈ t) ∨
  (∃ s1 s2, s1 ≠ s2 ∧
     (Some full, EvGetsize full (Ok s1)) ∈ t ∧
     (Some full, EvGetsize full (Ok s2)) ∈ t).

(** The POST raised an error or was answered outside [200, 300). *)
Definition post_failed (r : result response) : Prop :=
  match r with
  | Raise e => is_Exception e = true
  | Ok resp => success (status_code resp) = false
  end.

(** No call is made on behalf of [p] and no call names [p] as its file. *)
Definition quiet_about (p : string) (x : entry) : Prop :=
  x.1 ≠ Some p ∧ touches p x.2 = false.

(** The character occurs in the string. *)
Fixpoint contains (c : ascii) (s : string) : bool :=
  match s with
  | EmptyString => false
  | String d s' => Ascii.eqb c d || contains c s'
  end.

(** The ranges Python keeps the fields of a [datetime] in. *)
Definition valid_datetime (d : datetime) : Prop :=
  (1 <= year d <= 9999)%N ∧ (1 <= month d <= 12)%N ∧ (1 <= day d <= 31)%N ∧
  (hour d <= 23)%N ∧ (minute d <= 59)%N ∧ (second d <= 59)%N ∧
  (microsecond d <= 999999)%N.

(** The two readings of the clock fall into the same second. *)
Definition same_second (d1 d2 : datetime) : Prop :=
  year d1 = year d2 ∧ month d1 = month d2 ∧ day d1 = day d2 ∧
  hour d1 = hour d2 ∧ minute d1 = minute d2 ∧ second d1 = second d2.

Definition is_makedirs (e : event) : bool :=
  match e with EvMakedirs _ _ => true | _ => false end.

(** What a reader of the call log remembers: the names the last listing
    returned, and the path and the text of a read that returned since and
    was not followed by a POST yet. *)
Definition scan_state : Type := list string * option (string * string).

Definition scan_step (st : scan_state) (x : entry) : scan_state :=
  match x.2 with
  | EvListdir _ (Ok names) => (names, None)
  | EvListdir _ (Raise _) => ([], None)
  | EvRead p (Ok text) => (st.1, Some (p, text))
  | EvRead _ (Raise _) => (st.1, None)
  | EvPost _ _ _ _ => (st.1, None)
  | _ => st
  end.

Definition scan (st : scan_state) (t : list entry) : scan_state :=
  fold_left scan_step t st.

(** The call, if it is a POST, goes to the configured URL with a timeout
    of ten seconds, in the iteration of a [.txt] name that the last
    listing returned, and its body has the meeting id of that name as id
    and as title, the text the read of that entry just returned as
    transcript, no attendees and the configured staging flag. *)
Definition post_shape (directory webhook_url : string) (stage : bool)
    (st : scan_state) (x : entry) : Prop :=
  match x.2 with
  | EvPost url body timeout _ =>
      url = webhook_url ∧ timeout = 10 ∧
      ∃ fn,
        fn ∈ st.1 ∧ txt_name fn ∧
        x.1 = Some (path_join directory fn) ∧
        meeting_id body = splitext_root fn ∧
        title body = splitext_root fn ∧
        st.2 = Some (path_join directory fn, transcript body) ∧
        attendees body = [] ∧
        stage_flag body = stage
  | _ => True
  end.

(** Every POST of the log has that shape, where it stands. *)
Fixpoint posts_shaped (directory webhook_url : string) (stage : bool)
    (st : scan_state) (t : list entry) : Prop :=
  match t with
  | [] => True
  | x :: t' =>
      post_shape directory webhook_url stage st x ∧
      posts_shaped directory webhook_url stage (scan_step st x) t'
  end.

(** A call that is no listing, no read and no POST. *)
Definition plain (x : entry) : Prop :=
  match x.2 with
  | EvListdir _ _ | EvRead _ _ | EvPost _ _ _ _ => False
  | _ => True
  end.

(** The call, if it names a file, names the entry of its iteration, a
    [.txt] name joined to the watch root; a rename goes to the archive name
    of that entry joined to the archive subdirectory. *)
Definition file_call_shape (directory processed_dir_name : string)
    (x : entry) : Prop :=
  match x.2 with
  | EvGetsize p _ | EvRead p _ =>
      ∃ fn, is_txt fn = true ∧ p = path_join directory fn ∧ x.1 = Some p
  | EvRename src dst _ =>
      ∃ fn d,
        is_txt fn = true ∧ src = path_join directory fn ∧ x.1 = Some src ∧
        dst = path_join (processed_dir directory processed_dir_name)
                (archive_name (splitext_root fn) d)
  | _ => True
  end.

(** The calls show why [p] is in the seen set: its read raised, or its
    POST was answered with a status in [200, 300). *)
Definition settled (p : string) (t : list entry) : Prop :=
  (∃ e, is_Exception e = true ∧ (Some p, EvRead p (Raise e)) ∈ t) ∨
  (∃ url body timeout resp,
     success (status_code resp) = true ∧
     (Some p, EvPost url body timeout (Ok resp)) ∈ t).

(** The seen set grew from [seen] to [seen'], and the calls [t] account
    for every path that came in. *)
Definition accounted (seen seen' : gset string) (t : list entry) : Prop :=
  seen ⊆ seen' ∧ ∀ p, p ∈ seen' → p ∈ seen ∨ settled p t.

(** The POSTs made for the entry [p]. *)
Definition posts_for (p : string) (t : list entry) : list entry :=
  filter (λ x : entry, x.1 = Some p ∧ is_post x.2 = true) t.

(** Every [os.makedirs] comes right after an [os.path.exists] of the same
    path that answered [False]; [prev] is the call before the first. *)
Fixpoint guarded (prev : option entry) (t : list entry) : Prop :=
  match t with
  | [] => True
  | x :: t' =>
      match x.2 with
      | EvMakedirs p _ => prev = Some (None, EvExists p (Ok false))
      | _ => True
      end ∧ guarded (Some x) t'
  end.

(** The listing that opens a pass of the loop, and the sleep of [ms]
    milliseconds that closes it. *)
Definition is_listing (x : entry) : bool :=
  match x with
  | (None, EvListdir _ _) => true
  | _ => false
  end.

Definition is_poll_sleep (ms : Z) (x : entry) : bool :=
  match x with
  | (None, EvSleep ms' (Ok _)) => ms' =? ms
  | _ => false
  end.

(** The calls of lines 32-35. *)
Definition is_startup (e : event) : bool :=
  match e with
  | EvAbspath _ _ | EvExists _ _ | EvMakedirs _ _ => true
  | _ => false
  end.

Section Detector.
Context {W : Type} `{OS W}.
Variable commonpath : list string → option string.
Variables (directory webhook_url : string) (stage : bool)
          (poll_interval : Z) (processed_dir_name : string).

(** [commonpath] says that the path lies inside the archive subdirectory. *)
Definition inside_archive (full : string) : Prop :=
  commonpath [full; processed_dir directory processed_dir_name] =
  Some (processed_dir directory processed_dir_name).

Definition eligible (seen : gset string) (fn : string) : Prop :=
  ¬ inside_archive (path_join directory fn) ∧ path_join directory fn ∉ seen.

#[global] Instance inside_archive_dec full : Decision (inside_archive full).
Proof. unfold inside_archive. apply _. Defined.

#[global] Instance eligible_dec seen fn : Decision (eligible seen fn).
Proof. unfold eligible. apply _. Defined.

(** The candidate sequence of a cycle, as the specification words it: of
    the names listed, those with the extension, outside the archive and not
    seen, in the order of their names. *)
Definition candidates (names : list string) (seen : gset string) : list string :=
  filter (eligible seen) (sorted (filter (λ f, is_txt f = true) names)).

(** The delivery steps run over a list of candidates, one after the other. *)
Fixpoint deliver_all (cands : list string) (seen : gset string)
    : M W (gset string) :=
  match cands with
  | [] => ret seen
  | fn :: rest =>
      bind (on_entry (path_join directory fn)
              (deliver directory webhook_url stage processed_dir_name
                 seen fn (path_join directory fn)))
           (deliver_all rest)
  end.

(** A pass of the loop as the specification words it, for a listing that
    returned [names]: detect, deliver to every candidate, sleep. *)
Definition cycle_on (names : list string) (seen : gset string)
    : M W (gset string) :=
  bind (deliver_all (candidates names seen) seen)
    (λ seen', bind (sleep (poll_interval * 1000)) (λ _, ret seen')).

End Detector.

(** ** Runs on POSIX *)

Definition demo_root : string := "/home/pmo/transcripts".
Definition demo_url : string := "http://localhost:8080/webhook/transcript".

Definition demo_time (s us : N) : datetime :=
  {| year := 2024; month := 1; day := 15;
     hour := 9; minute := 30; second := s; microsecond := us |}.

Definition demo_answer (code : Z) : result response :=
  Ok {| status_code := code; text := "" |}.

Definition demo_world (files : list (string * Posix.node))
    (clock : list datetime) (endpoint : list (result response))
    (others : list Posix.outside) : Posix.world :=
  {| Posix.cwd := "/home/pmo";
     Posix.fs := list_to_map
       ((demo_root, Posix.Dir true) ::
        (demo_root +:+ "/processed", Posix.Dir true) ::
        map (λ kv : string * Posix.node, (demo_root +:+ "/" +:+ kv.1, kv.2)) files);
     Posix.clock := clock;
     Posix.endpoint := endpoint;
     Posix.others := others |}.

Definition demo_entry (seen : gset string) (fn : string) (w : Posix.world) :=
  process_entry Posix.commonpath demo_root demo_url true "processed" seen fn w.

Definition demo_cycles (n : nat) (seen : gset string) (w : Posix.world) :=
  cycles Posix.commonpath demo_root demo_url true 5 "processed" n seen w.

Definition demo_run (n : nat) (w : Posix.world) :=
  watch_and_post Posix.commonpath n "transcripts" demo_url true 5 "processed" w.

(** Two names with the meeting id [standup], delivered within one second. *)
Definition world_same_second : Posix.world :=
  demo_world
    [("standup.TXT", Posix.File "minutes of Monday" true);
     ("standup.txt", Posix.File "minutes of Tuesday" true)]
    [demo_time 0 100000; demo_time 0 700000]
    [demo_answer 200; demo_answer 200]
    [].

(** The watch root has lost its read permission. *)
Definition world_locked : Posix.world :=
  {| Posix.cwd := "/home/pmo";
     Posix.fs := list_to_map
       [(demo_root, Posix.Dir false);
        (demo_root +:+ "/processed", Posix.Dir true)];
     Posix.clock := [];
     Posix.endpoint := [];
     Posix.others := [] |}.

(** The watch root has been removed. *)
Definition world_removed : Posix.world :=
  {| Posix.cwd := "/home/pmo";
     Posix.fs := list_to_map [("/home", Posix.Dir true); ("/home/pmo", Posix.Dir true)];
     Posix.clock := [];
     Posix.endpoint := [];
     Posix.others := [] |}.

(** [kickoff.txt] is delivered, then dropped again with other content while
    the loop sleeps. *)
Definition world_redrop : Posix.world :=
  demo_world
    [("kickoff.txt", Posix.File "Agenda: intro" true)]
    [demo_time 0 0]
    [demo_answer 200; demo_answer 200]
    [Posix.Idle;
     Posix.Put (demo_root +:+ "/kickoff.txt") (Posix.File "Agenda: intro, budget" true)].

(** The endpoint answers 500. *)
Definition world_broken : Posix.world :=
  demo_world [("broken.txt", Posix.File "notes" true)] []
    [demo_answer 500; demo_answer 500; demo_answer 500] [].

(** The archive subdirectory disappears while the file is probed. *)
Definition world_no_archive : Posix.world :=
  demo_world [("retro.txt", Posix.File "notes" true)] [demo_time 0 0]
    [demo_answer 204]
    [Posix.Unlink (demo_root +:+ "/processed")].

(** A file closed to reading, a directory named like a transcript, a file
    that is not UTF-8. *)
Definition world_unreadable : Posix.world :=
  demo_world
    [("secret.txt", Posix.File "notes" false);
     ("notes.txt", Posix.Dir true);
     ("latin1.txt", Posix.File (String (ascii_of_N 233) "t" +:+ String (ascii_of_N 233) "") true)]
    [] [demo_answer 200] [].

(** A symbolic link named like a transcript whose target does not exist. *)
Definition world_ghost : Posix.world :=
  demo_world [("ghost.txt", Posix.Link "missing.txt")] []
    [demo_answer 200] [].

(** A file that is still being written. *)
Definition world_partial : Posix.world :=
  demo_world [("partial.txt", Posix.File "first line" true)] []
    [demo_answer 200]
    [Posix.Put (demo_root +:+ "/partial.txt") (Posix.File "first line, second line" true)].

(** A listing with names of every kind. *)
Definition world_mixed : Posix.world :=
  demo_world
    [("b.txt", Posix.File "b" true); ("a.TXT", Posix.File "a" true);
     ("notes.md", Posix.File "m" true); ("c.Txt", Posix.File "c" true);
     ("txt", Posix.File "t" true)]
    [] [demo_answer 200; demo_answer 503; demo_answer 200] [].

(** The archive subdirectory was named [done.txt/], with a separator at
    its end, and created at startup. *)
Definition world_slash : Posix.world :=
  {| Posix.cwd := "/home/pmo";
     Posix.fs := list_to_map
       [(demo_root, Posix.Dir true);
        (demo_root +:+ "/done.txt", Posix.Dir true)];
     Posix.clock := [];
     Posix.endpoint := [];
     Posix.others := [] |}.

(** The listing of [world_mixed]. *)
Definition mixed_names : list string :=
  ["c.Txt"; "a.TXT"; "notes.md"; "b.txt"; "txt"; "processed"].

(** ** Facts about the string functions *)

Lemma endswith_iff (s suf : string) :
  endswith s suf = true ↔ ∃ pre, s = pre +:+ suf.
Proof.
  induction s as [|c s IH]; cbn [endswith].
  - rewrite orb_false_r, String.eqb_eq. split.
    + intros <-. by exists "".
    + intros [pre Hp]. destruct pre; simpl in Hp; [done | discriminate].
  - rewrite orb_true_iff, String.eqb_eq, IH. split.
    + intros [<- | [pre ->]]; [by exists "" | by exists (String c pre)].
    + intros [[|d pre] Hp]; simpl in Hp; [by left | right].
      injection Hp as -> ->. by exists pre.
Qed.

Lemma lower_app (a b : string) : lower (a +:+ b) = lower a +:+ lower b.
Proof. induction a as [|c a IH]; simpl; [done | by rewrite IH]. Qed.

Lemma lower_length (s : string) : String.length (lower s) = String.length s.
Proof. induction s as [|c s IH]; simpl; [done | by rewrite IH]. Qed.

Lemma app_length (a b : string) :
  String.length (a +:+ b) = (String.length a + String.length b)%nat.
Proof. induction a as [|c a IH]; simpl; [done | by rewrite IH]. Qed.

Lemma app_cons (x : ascii) (a b : string) :
  String x a +:+ b = String x (a +:+ b).
Proof. reflexivity. Qed.

Lemma app_assoc_s (a b c : string) : (a +:+ b) +:+ c = a +:+ (b +:+ c).
Proof. induction a as [|x a IH]; [done | by rewrite !app_cons, IH]. Qed.

(** Cutting a string whose length is known on the right. *)
Lemma app_inv_tail_length (a b c d : string) :
  a +:+ b = c +:+ d → String.length b = String.length d → a = c ∧ b = d.
Proof.
  revert c. induction a as [|x a IH]; intros [|y c]; rewrite ?app_cons;
    intros Heq Hlen.
  - done.
  - change ("" +:+ b) with b in Heq. subst b.
    simpl in Hlen. rewrite app_length in Hlen. lia.
  - change ("" +:+ d) with d in Heq. subst d.
    simpl in Hlen. rewrite app_length in Hlen. lia.
  - injection Heq as -> Heq. destruct (IH c Heq Hlen) as [-> ->]. done.
Qed.

Lemma lower_dot (x : ascii) : lower_ascii x = "."%char → x = "."%char.
Proof.
  unfold lower_ascii. destruct (is_upper x) eqn:Hu; [|done].
  intros Hx. apply (f_equal nat_of_ascii) in Hx.
  unfold is_upper in Hu. apply andb_true_iff in Hu as [H1 H2].
  apply Nat.leb_le in H1, H2.
  rewrite nat_ascii_embedding in Hx by lia.
  change (nat_of_ascii ".") with 46%nat in Hx. lia.
Qed.

Lemma app_nil (b : string) : "" +:+ b = b.
Proof. reflexivity. Qed.

Lemma split_last4 (s : string) (x1 x2 x3 x4 : ascii) (pre : string) :
  lower s = pre +:+ String x1 (String x2 (String x3 (String x4 ""))) →
  ∃ stem a b c d,
    s = stem +:+ String a (String b (String c (String d ""))) ∧
    lower_ascii a = x1 ∧ lower_ascii b = x2 ∧
    lower_ascii c = x3 ∧ lower_ascii d = x4.
Proof.
  revert pre. induction s as [|y s IH]; intros pre Hs.
  - destruct pre; discriminate.
  - destruct pre as [|p pre]; rewrite ?app_cons, ?app_nil in Hs.
    + destruct s as [|y2 [|y3 [|y4 [|y5 s]]]]; simpl in Hs; try discriminate.
      injection Hs as ? ? ? ?. subst. by exists "", y, y2, y3, y4.
    + simpl in Hs. injection Hs as ? Hs. subst p.
      destruct (IH _ Hs) as (stem & a & b & c & d & -> & ?).
      by exists (String y stem), a, b, c, d.
Qed.

Lemma lower_t (x : ascii) : lower_ascii x = "t"%char ↔ letter "t" "T" x.
Proof.
  unfold letter.
  destruct x as [[] [] [] [] [] [] [] []]; vm_compute;
    (split; [intros [=]; auto | intros [[=]|[=]]; reflexivity]).
Qed.

Lemma lower_x (x : ascii) : lower_ascii x = "x"%char ↔ letter "x" "X" x.
Proof.
  unfold letter.
  destruct x as [[] [] [] [] [] [] [] []]; vm_compute;
    (split; [intros [=]; auto | intros [[=]|[=]]; reflexivity]).
Qed.

Lemma is_txt_iff (f : string) : is_txt f = true ↔ txt_name f.
Proof.
  unfold is_txt, txt_name. rewrite endswith_iff. split.
  - intros [pre Hp].
    apply split_last4 in Hp as (stem & a & b & c & d & -> & Ha & Hb & Hc & Hd).
    apply lower_dot in Ha as ->. exists stem, b, c, d.
    by rewrite <- !lower_t, <- lower_x.
  - intros (stem & a & b & c & -> & Ha%lower_t & Hb%lower_x & Hc%lower_t).
    exists (lower stem). rewrite lower_app. simpl. by rewrite Ha, Hb, Hc.
Qed.

(** ** The order of names *)

Lemma lex_leb_total (a b : list N) : lex_leb a b = true ∨ lex_leb b a = true.
Proof.
  revert b. induction a as [|x a IH]; intros [|y b]; simpl; auto.
  destruct (N.ltb_spec x y), (N.ltb_spec y x), (N.eqb_spec x y),
    (N.eqb_spec y x); simpl; auto; lia.
Qed.

Lemma lex_leb_trans (a b c : list N) :
  lex_leb a b = true → lex_leb b c = true → lex_leb a c = true.
Proof.
  revert b c. induction a as [|x a IH]; intros [|y b] [|z c]; simpl; auto;
    try discriminate.
  destruct (N.ltb_spec x y), (N.ltb_spec y z), (N.ltb_spec x z),
    (N.eqb_spec x y), (N.eqb_spec y z), (N.eqb_spec x z); simpl;
    try done; try lia.
  apply IH.
Qed.

#[global] Instance name_le_total : Total name_le.
Proof. intros a b. apply lex_leb_total. Qed.

#[global] Instance name_le_trans : Transitive name_le.
Proof. intros a b c. apply lex_leb_trans. Qed.

(** The bytes FF and EF BC A1 (U+FF21): the first does not decode and
    becomes U+DCFF, which comes before U+FF21, though FF comes after EF. *)
Example sorted_by_code_point :
  sorted [String (ascii_of_N 239) (String (ascii_of_N 188)
            (String (ascii_of_N 161) ".txt"));
          String (ascii_of_N 255) ".txt"] =
    [String (ascii_of_N 255) ".txt";
     String (ascii_of_N 239) (String (ascii_of_N 188)
       (String (ascii_of_N 161) ".txt"))] ∧
  fsdecode (String (ascii_of_N 239) (String (ascii_of_N 188)
              (String (ascii_of_N 161) ""))) = [65313%N] ∧
  fsdecode (String (ascii_of_N 255) "") = [56575%N].
Proof. split_and!; vm_compute; reflexivity. Qed.

(** ** Meeting ids and archive names *)

Lemma contains_app c a b :
  contains c (a +:+ b) = contains c a || contains c b.
Proof.
  induction a as [|x a IH]; [done|].
  rewrite app_cons. cbn [contains]. rewrite IH. by rewrite orb_assoc.
Qed.

Lemma rfind_from_absent c s i last :
  contains c s = false → rfind_from c s i last = last.
Proof.
  revert i last. induction s as [|d s IH]; intros i last; [done|].
  cbn [contains rfind_from]. intros [-> Hs]%orb_false_iff. by apply IH.
Qed.

Lemma rfind_from_app c a b i last :
  rfind_from c (a +:+ b) i last =
  rfind_from c b (i + String.length a) (rfind_from c a i last).
Proof.
  revert i last. induction a as [|x a IH]; intros i last.
  - rewrite app_nil. cbn. by rewrite Nat.add_0_r.
  - rewrite app_cons. cbn [rfind_from String.length]. rewrite IH.
    by rewrite Nat.add_succ_r.
Qed.

Lemma rfind_last_dot stem ext :
  contains "." ext = false →
  rfind "." (stem +:+ String "." ext) = Some (String.length stem).
Proof.
  intros Hext. unfold rfind. rewrite rfind_from_app. cbn [rfind_from].
  rewrite Ascii.eqb_refl. by rewrite rfind_from_absent.
Qed.

Lemma substring_prefix a b :
  String.substring 0 (String.length a) (a +:+ b) = a.
Proof.
  induction a as [|x a IH].
  - rewrite app_nil. by destruct b.
  - rewrite app_cons. cbn [String.length String.substring]. by rewrite IH.
Qed.

Lemma all_dots_no_sep s : all_dots s = true → contains "/" s = false.
Proof.
  induction s as [|c s IH]; [done|]. cbn [all_dots contains].
  destruct (Ascii.eqb_spec c ".") as [->|]; [|done]. intros Hs.
  by rewrite (IH Hs).
Qed.

(** X1. The meeting id of line 80 for a name [stem.ext]: the stem, when the
    name holds no separator, the extension no dot, and the stem is more
    than dots. *)
Theorem splitext_root_stem stem ext :
  contains "/" stem = false →
  contains "/" ext = false →
  contains "." ext = false →
  all_dots stem = false →
  splitext_root (stem +:+ String "." ext) = stem.
Proof.
  intros Hs1 Hs2 Hext Hdots. unfold splitext_root.
  rewrite rfind_last_dot by done.
  unfold rfind. rewrite rfind_from_absent.
  2: { rewrite contains_app. cbn [contains]. by rewrite Hs1, Hs2. }
  cbn [Nat.leb]. rewrite Nat.sub_0_r, substring_prefix. by rewrite Hdots.
Qed.

(** X2. A name made of dots and an extension, such as [.txt], has no stem to
    cut: its meeting id is the whole name. *)
Theorem splitext_root_hidden stem ext :
  all_dots stem = true →
  contains "/" ext = false →
  contains "." ext = false →
  splitext_root (stem +:+ String "." ext) = stem +:+ String "." ext.
Proof.
  intros Hdots Hs2 Hext. unfold splitext_root.
  rewrite rfind_last_dot by done.
  unfold rfind. rewrite rfind_from_absent.
  2: { rewrite contains_app. cbn [contains].
       by rewrite (all_dots_no_sep _ Hdots), Hs2. }
  cbn [Nat.leb]. rewrite Nat.sub_0_r, substring_prefix. by rewrite Hdots.
Qed.

Lemma digit_mod (n m : N) : digit n = digit m → (n mod 10 = m mod 10)%N.
Proof.
  unfold digit. intros Hd. apply (f_equal N_of_ascii) in Hd.
  assert (n mod 10 < 10)%N by (apply N.mod_lt; lia).
  assert (m mod 10 < 10)%N by (apply N.mod_lt; lia).
  rewrite !N_ascii_embedding in Hd by lia. lia.
Qed.

Lemma pad2_inj (n m : N) : (n < 100)%N → (m < 100)%N → pad2 n = pad2 m → n = m.
Proof.
  intros Hn Hm. unfold pad2. intros [= H1%digit_mod H0%digit_mod].
  assert (n / 10 < 10)%N by (apply N.Div0.div_lt_upper_bound; lia).
  assert (m / 10 < 10)%N by (apply N.Div0.div_lt_upper_bound; lia).
  rewrite !N.mod_small in H1 by done.
  rewrite (N.div_mod n 10), (N.div_mod m 10) by lia. lia.
Qed.

Lemma pad4_inj (n m : N) :
  (n < 10000)%N → (m < 10000)%N → pad4 n = pad4 m → n = m.
Proof.
  intros Hn Hm. unfold pad4, pad2.
  intros [= H3%digit_mod H2%digit_mod H1%digit_mod H0%digit_mod].
  assert (n / 1000 < 10)%N by (apply N.Div0.div_lt_upper_bound; lia).
  assert (m / 1000 < 10)%N by (apply N.Div0.div_lt_upper_bound; lia).
  rewrite !N.mod_small in H3 by done.
  assert (∀ k, (k / 10 / 10 = k / 100)%N) as E100
    by (intros k; by rewrite N.Div0.div_div).
  assert (∀ k, (k / 100 / 10 = k / 1000)%N) as E1000
    by (intros k; by rewrite N.Div0.div_div).
  pose proof (N.div_mod n 10 ltac:(lia)) as En.
  pose proof (N.div_mod m 10 ltac:(lia)) as Em.
  pose proof (N.div_mod (n / 10) 10 ltac:(lia)) as En1.
  pose proof (N.div_mod (m / 10) 10 ltac:(lia)) as Em1.
  pose proof (N.div_mod (n / 100) 10 ltac:(lia)) as En2.
  pose proof (N.div_mod (m / 100) 10 ltac:(lia)) as Em2.
  rewrite E100 in En1, Em1. rewrite E1000 in En2, Em2. lia.
Qed.

Lemma strftime_length d : String.length (strftime d) = 16%nat.
Proof. done. Qed.

Lemma strftime_inj d1 d2 :
  valid_datetime d1 → valid_datetime d2 →
  strftime d1 = strftime d2 → same_second d1 d2.
Proof.
  intros (Hy1 & Hmo1 & Hd1 & Hh1 & Hmi1 & Hs1 & _)
         (Hy2 & Hmo2 & Hd2 & Hh2 & Hmi2 & Hs2 & _) Heq.
  unfold strftime in Heq.
  assert (∀ a b c d, pad4 a +:+ b = pad4 c +:+ d → pad4 a = pad4 c ∧ b = d)
    as cut4.
  { intros a b c d. unfold pad4, pad2. rewrite !app_cons, !app_nil.
    intros [= -> -> -> -> ->]. done. }
  assert (∀ a b c d, pad2 a +:+ b = pad2 c +:+ d → pad2 a = pad2 c ∧ b = d)
    as cut2.
  { intros a b c d. unfold pad2. rewrite !app_cons, !app_nil.
    intros [= -> -> ->]. done. }
  apply cut4 in Heq as [Hy Heq]. apply cut2 in Heq as [Hmo Heq].
  apply cut2 in Heq as [Hd Heq]. apply String.app_inj in Heq.
  apply cut2 in Heq as [Hh Heq].
  apply cut2 in Heq as [Hmi Heq]. apply cut2 in Heq as [Hs _].
  unfold same_second. split_and!;
    [apply pad4_inj; (done || lia) | apply pad2_inj; (done || lia) ..].
Qed.

(** X3. Two archive names of lines 94-95 coincide exactly when the meeting id
    is the same and the clock was read in the same second. *)
Theorem archive_name_collision mid1 mid2 d1 d2 :
  valid_datetime d1 → valid_datetime d2 →
  archive_name mid1 d1 = archive_name mid2 d2 ↔
  mid1 = mid2 ∧ same_second d1 d2.
Proof.
  intros Hv1 Hv2. unfold archive_name. split.
  - intros Heq. apply app_inv_tail_length in Heq as [-> Heq].
    + split; [done|]. apply strftime_inj; [done..|].
      apply String.app_inj in Heq.
      apply app_inv_tail_length in Heq as [Heq _]; done.
    + by rewrite !app_length, !strftime_length.
  - intros [-> (Hy & Hmo & Hd & Hh & Hmi & Hs)]. unfold strftime.
    by rewrite Hy, Hmo, Hd, Hh, Hmi, Hs.
Qed.

(** ** One iteration of the [for] loop *)

Section Iteration.
Context {W : Type} `{OS W}.
Variable commonpath : list string → option string.
Variables (directory webhook_url : string) (stage : bool)
          (poll_interval : Z) (processed_dir_name : string).

Abbreviation process_entry :=
  (process_entry commonpath directory webhook_url stage processed_dir_name).
Abbreviation deliver := (deliver directory webhook_url stage processed_dir_name).
Abbreviation inside_archive :=
  (inside_archive commonpath directory processed_dir_name).
Abbreviation eligible := (eligible commonpath directory processed_dir_name).
Abbreviation candidates := (candidates commonpath directory processed_dir_name).
Abbreviation deliver_all :=
  (deliver_all directory webhook_url stage processed_dir_name).
Abbreviation cycle_on :=
  (cycle_on commonpath directory webhook_url stage poll_interval
     processed_dir_name).

(** Runs a call of the environment whose state is known by name. *)
Ltac os_call :=
  match goal with
  | |- context [os_getsize ?p ?w] =>
      is_var w; destruct (os_getsize p w) as [[?|?] ?] eqn:?
  | |- context [time_sleep ?p ?w] =>
      is_var w; destruct (time_sleep p w) as [[?|?] ?] eqn:?
  | |- context [read_text ?p ?w] =>
      is_var w; destruct (read_text p w) as [[?|?] ?] eqn:?
  | |- context [requests_post ?u ?b ?t ?w] =>
      is_var w; destruct (requests_post u b t w) as [[?|?] ?] eqn:?
  | |- context [utcnow ?w] =>
      is_var w; destruct (utcnow w) as [[?|?] ?] eqn:?
  | |- context [os_rename ?a ?b ?w] =>
      is_var w; destruct (os_rename a b w) as [[?|?] ?] eqn:?
  | |- context [is_Exception ?e] =>
      is_var e; destruct (is_Exception e) eqn:?
  | |- context [(200 <=? ?c) && (?c <? 300)] =>
      destruct ((200 <=? c) && (c <? 300)) eqn:?
  | |- context [?a =? ?b] =>
      is_var a; is_var b; destruct (Z.eqb_spec a b)
  end.

Ltac unfold_entry :=
  unfold deliver, stable, read_transcript, post_and_archive, getsize, sleep,
    open_read, post, now, rename, on_entry, try_except, bind, perform, ret,
    outcome, trace, final.

Ltac exec := unfold_entry; repeat (simpl; os_call); simpl.

Ltac in_trace :=
  repeat match goal with
  | H : _ ∈ [] |- _ => by apply elem_of_nil in H
  | H : _ ∈ _ :: _ |- _ => apply elem_of_cons in H as [H|H]; simplify_eq
  end.

(** The seen set of the iteration that makes a call does not hold the
    entry: calls are made only past the test on line 58. *)
Lemma process_entry_calls seen fn w :
  trace (process_entry seen fn w) ≠ [] →
  (path_join directory fn ∉ seen) ∧
  ∀ w', process_entry seen fn w' =
        on_entry (path_join directory fn)
          (deliver seen fn (path_join directory fn)) w'.
Proof.
  unfold process_entry.
  destruct (in_processed _ _ _ _); [done|].
  destruct (decide _); done.
Qed.

(** C7. A candidate whose two size probes return different values, or for
    which a size probe raises an error, leaves the iteration without being
    added to the seen set and without a read, a POST or a rename; it was
    not in the seen set, so the next cycle considers it again. *)
Theorem unstable_candidate_skipped seen fn w :
  let full := path_join directory fn in
  let run := process_entry seen fn w in
  probe_failed full (trace run) →
  outcome run = Ok seen ∧
  (full ∉ seen) ∧
  Forall (λ x : entry, is_delivery x.2 = false) (trace run).
Proof.
  intros full run Hp.
  destruct (process_entry_calls seen fn w) as [Hseen Hrun].
  { intros Hnil. fold run in Hnil. rewrite Hnil in Hp.
    destruct Hp as [(e & _ & Hin) | (s1 & s2 & _ & Hin & _)];
      by apply elem_of_nil in Hin. }
  split_and!; [|done|]; revert Hp; unfold run; rewrite Hrun; fold full;
    clear Hrun; exec;
    intros [(e' & He & Hin) | (s1 & s2 & Hne & Hin & Hin')];
    try (repeat constructor; done);
    in_trace; congruence.
Qed.

(** C3. When the POST of a candidate raises an exception or is answered
    with a status outside [200, 300), the iteration ends with that call:
    the seen set is unchanged and does not hold the path, nothing is
    renamed, and the same path goes through the delivery steps again when a
    later cycle lists it.  The body that was sent is the text just read. *)
Theorem failed_post_left_for_retry seen fn w url body t r :
  let full := path_join directory fn in
  let run := process_entry seen fn w in
  (Some full, EvPost url body t r) ∈ trace run →
  post_failed r →
  outcome run = Ok seen ∧
  (full ∉ seen) ∧
  Forall (λ x : entry, is_rename x.2 = false) (trace run) ∧
  (∃ pre text,
     trace run = pre ++ [(Some full, EvRead full (Ok text));
                         (Some full, EvPost url body t r)] ∧
     body = build_payload stage (splitext_root fn) text) ∧
  (∀ w', process_entry seen fn w' = on_entry full (deliver seen fn full) w').
Proof.
  intros full run Hin Hfail.
  destruct (process_entry_calls seen fn w) as [Hseen Hrun].
  { intros Hnil. fold run in Hnil. rewrite Hnil in Hin.
    by apply elem_of_nil in Hin. }
  split_and!; [|done| | |done]; revert Hin; unfold run; rewrite Hrun;
    fold full; clear Hrun; exec; intros Hin; in_trace;
    unfold post_failed, success in Hfail; simpl in *; try congruence;
    try (repeat constructor; done).
  all: eexists _, _; split; [|reflexivity];
    match goal with
    | |- ?a :: ?b :: ?c :: ?rest = _ => by instantiate (1 := [a; b; c])
    end.
Qed.

(** *** Sequencing *)

Lemma outcome_bind {A B} (m : M W A) (k : A → M W B) w :
  outcome (bind m k w) =
  match outcome (m w) with
  | Ok a => outcome (k a (final (m w)))
  | Raise e => Raise e
  end.
Proof.
  unfold bind, outcome, final. destruct (m w) as [[[a|e] w1] t1]; simpl; [|done].
  by destruct (k a w1) as [[? ?] ?].
Qed.

Lemma trace_bind {A B} (m : M W A) (k : A → M W B) w :
  trace (bind m k w) =
  match outcome (m w) with
  | Ok a => trace (m w) ++ trace (k a (final (m w)))
  | Raise e => trace (m w)
  end.
Proof.
  unfold bind, outcome, final, trace.
  destruct (m w) as [[[a|e] w1] t1]; simpl; [|done].
  by destruct (k a w1) as [[? ?] ?].
Qed.

Lemma final_bind {A B} (m : M W A) (k : A → M W B) w :
  final (bind m k w) =
  match outcome (m w) with
  | Ok a => final (k a (final (m w)))
  | Raise e => final (m w)
  end.
Proof.
  unfold bind, outcome, final.
  destruct (m w) as [[[a|e] w1] t1]; simpl; [|done].
  by destruct (k a w1) as [[? ?] ?].
Qed.

Lemma trace_bind_Forall {A B} (P : entry → Prop) (m : M W A) (k : A → M W B) w :
  Forall P (trace (m w)) →
  (∀ a, outcome (m w) = Ok a → Forall P (trace (k a (final (m w))))) →
  Forall P (trace (bind m k w)).
Proof.
  intros Hm Hk. rewrite trace_bind. destruct (outcome (m w)) as [a|e]; [|done].
  apply Forall_app. split; [done | by apply Hk].
Qed.

(** *** The seen set grows, and a path in it is left alone *)

Lemma process_entry_grows seen fn w seen' :
  outcome (process_entry seen fn w) = Ok seen' →
  seen' = seen ∨ seen' = seen ∪ {[path_join directory fn]}.
Proof.
  unfold process_entry.
  destruct (in_processed _ _ _ _); [intros [= <-]; by left|].
  destruct (decide _); [intros [= <-]; by left|].
  exec; intros [= <-]; auto.
Qed.

Lemma process_entry_keeps seen fn w seen' p :
  p ∈ seen → outcome (process_entry seen fn w) = Ok seen' → p ∈ seen'.
Proof.
  intros Hp Hs. destruct (process_entry_grows _ _ _ _ Hs) as [-> | ->];
    set_solver.
Qed.

Lemma process_entry_quiet seen fn w p :
  p ∈ seen → Forall (quiet_about p) (trace (process_entry seen fn w)).
Proof.
  intros Hp. unfold process_entry.
  destruct (in_processed _ _ _ _); [constructor|].
  destruct (decide _) as [|Hn]; [constructor|].
  assert (path_join directory fn ≠ p) as Hne by congruence.
  assert (String.eqb (path_join directory fn) p = false) as Heqb
    by (by apply String.eqb_neq).
  unfold quiet_about.
  exec; repeat constructor; simpl; congruence.
Qed.

Abbreviation for_each :=
  (for_each commonpath directory webhook_url stage processed_dir_name).
Abbreviation cycle :=
  (cycle commonpath directory webhook_url stage poll_interval processed_dir_name).
Abbreviation cycles :=
  (cycles commonpath directory webhook_url stage poll_interval processed_dir_name).

Lemma for_each_quiet files seen w p :
  p ∈ seen →
  Forall (quiet_about p) (trace (for_each files seen w)) ∧
  ∀ seen', outcome (for_each files seen w) = Ok seen' → p ∈ seen'.
Proof.
  revert seen w. induction files as [|fn rest IH]; intros seen w Hp; simpl.
  - split; [constructor | by intros ? [= <-]].
  - split.
    + apply trace_bind_Forall; [by apply process_entry_quiet|].
      intros s Hs. by apply IH, (process_entry_keeps seen fn w).
    + intros seen'. rewrite outcome_bind.
      destruct (outcome (process_entry seen fn w)) as [s|e] eqn:Hs; [|done].
      by apply IH, (process_entry_keeps seen fn w).
Qed.

(** The calls of lines 42-47 belong to no entry and name no file. *)
Lemma list_txt_quiet w p :
  Forall (quiet_about p) (trace (list_txt directory w)).
Proof.
  unfold list_txt, ensure_dir, listdir, path_exists, makedirs, try_except,
    bind, perform, ret, trace, quiet_about.
  destruct (os_listdir directory w) as [[names|e] w1]; simpl.
  - by repeat constructor.
  - case_bool_decide; simpl; [|by repeat constructor].
    destruct (os_exists directory w1) as [[[|]|e'] w2]; simpl;
      try (by repeat constructor).
    destruct (os_makedirs directory w2) as [[?|?] ?]; simpl;
      by repeat constructor.
Qed.

Lemma cycle_quiet seen w p :
  p ∈ seen →
  Forall (quiet_about p) (trace (cycle seen w)) ∧
  ∀ seen', outcome (cycle seen w) = Ok seen' → p ∈ seen'.
Proof.
  intros Hp. unfold cycle. split.
  - apply trace_bind_Forall; [apply list_txt_quiet|]. intros files _.
    apply trace_bind_Forall; [by apply for_each_quiet|]. intros s Hs.
    unfold sleep, bind, perform, ret, trace, quiet_about.
    destruct (time_sleep _ _) as [[?|?] ?]; simpl; by repeat constructor.
  - intros seen'. rewrite outcome_bind.
    destruct (outcome (list_txt directory w)) as [files|]; [|done].
    rewrite outcome_bind.
    destruct (outcome (for_each _ _ _)) as [s|] eqn:Hs; [|done].
    apply (for_each_quiet _ _ _ p Hp) in Hs.
    unfold sleep, bind, perform, ret, outcome.
    destruct (time_sleep _ _) as [[?|?] ?]; simpl; [|done]. by intros [= <-].
Qed.

(** Once a path is in the seen set, no later pass of the loop makes a call
    for it or on it, and it stays in the set. *)
Lemma cycles_quiet n seen w p :
  p ∈ seen →
  Forall (quiet_about p) (trace (cycles n seen w)) ∧
  ∀ seen', outcome (cycles n seen w) = Ok seen' → p ∈ seen'.
Proof.
  revert seen w. induction n as [|n IH]; intros seen w Hp; simpl.
  - split; [constructor | by intros ? [= <-]].
  - destruct (cycle_quiet seen w p Hp) as [Ht Ho]. split.
    + apply trace_bind_Forall; [done|]. intros s Hs. by apply IH, Ho.
    + intros seen'. rewrite outcome_bind.
      destruct (outcome (cycle seen w)) as [s|] eqn:Hs; [|done].
      by apply IH, Ho.
Qed.

Lemma bind_assoc {A B C} (m : M W A) (k : A → M W B) (k' : B → M W C) w :
  bind (bind m k) k' w = bind m (λ a, bind (k a) k') w.
Proof.
  unfold bind. destruct (m w) as [[[a|e] w1] t1]; [|done].
  destruct (k a w1) as [[[b|e] w2] t2]; [|done].
  destruct (k' b w2) as [[? ?] ?]. by rewrite app_assoc.
Qed.

Lemma bind_ext {A B} (m : M W A) (k k' : A → M W B) w :
  (∀ a w', k a w' = k' a w') → bind m k w = bind m k' w.
Proof.
  intros Hk. unfold bind. destruct (m w) as [[[a|e] w1] t1]; [|done].
  by rewrite Hk.
Qed.

Lemma ret_bind {A B} (a : A) (k : A → M W B) w : bind (ret a) k w = k a w.
Proof. unfold bind, ret. by destruct (k a w) as [[? ?] ?]. Qed.

Lemma cycles_add m n seen w :
  cycles (m + n) seen w = bind (cycles m seen) (cycles n) w.
Proof.
  revert seen w. induction m as [|m IH]; intros seen w; simpl.
  - by rewrite ret_bind.
  - rewrite bind_assoc. by apply bind_ext.
Qed.
(** *** Paths in the seen set *)

(** C2. Take the pass of the loop after which [p] is in the seen set.
    Whatever the environment does from then on, the calls of the passes
    that follow contain none made for [p] (no size probe, read, POST or
    rename of the iteration of [p]) and none that names [p] as its file. *)
Theorem seen_path_never_redelivered seen0 m n w0 seen1 p :
  outcome (cycles m seen0 w0) = Ok seen1 →
  p ∈ seen1 →
  ∃ later,
    trace (cycles (m + n) seen0 w0) = trace (cycles m seen0 w0) ++ later ∧
    Forall (quiet_about p) later.
Proof.
  intros Hm Hp. rewrite cycles_add, trace_bind, Hm.
  eexists. split; [done|]. by apply cycles_quiet.
Qed.

(** C5. A POST answered with a status in [200, 300) followed by a rename
    that raises an error still ends with the path in the seen set: no
    rename succeeded, so the file stays where it was, and no later pass of
    the loop makes a call for the path again. *)
Theorem archive_failure_still_seen seen fn w url body t resp dst e :
  let full := path_join directory fn in
  let run := process_entry seen fn w in
  (Some full, EvPost url body t (Ok resp)) ∈ trace run →
  success (status_code resp) = true →
  (Some full, EvRename full dst (Raise e)) ∈ trace run →
  is_Exception e = true →
  outcome run = Ok (seen ∪ {[full]}) ∧
  Forall (λ x : entry, ∀ src dst', x.2 ≠ EvRename src dst' (Ok tt)) (trace run) ∧
  ∀ n w', Forall (quiet_about full) (trace (cycles n (seen ∪ {[full]}) w')).
Proof.
  intros full run Hpost Hok Hmv He.
  destruct (process_entry_calls seen fn w) as [Hseen Hrun].
  { intros Hnil. fold run in Hnil. rewrite Hnil in Hpost.
    by apply elem_of_nil in Hpost. }
  split_and!.
  3: { intros n w'. apply cycles_quiet. set_solver. }
  all: revert Hpost Hmv; unfold run; rewrite Hrun; fold full; clear Hrun;
    exec; intros Hpost Hmv; in_trace; try congruence;
    repeat constructor; done.
Qed.

(** C6. When reading a candidate raises an error, the iteration ends with
    that call and with the path in the seen set: no POST and no rename was
    made, and no later pass of the loop makes a call for the path. *)
Theorem unreadable_candidate_dropped seen fn w e :
  let full := path_join directory fn in
  let run := process_entry seen fn w in
  (Some full, EvRead full (Raise e)) ∈ trace run →
  is_Exception e = true →
  outcome run = Ok (seen ∪ {[full]}) ∧
  (∃ pre, trace run = pre ++ [(Some full, EvRead full (Raise e))]) ∧
  Forall (λ x : entry, is_post x.2 = false ∧ is_rename x.2 = false) (trace run) ∧
  ∀ n w', Forall (quiet_about full) (trace (cycles n (seen ∪ {[full]}) w')).
Proof.
  intros full run Hread He.
  destruct (process_entry_calls seen fn w) as [Hseen Hrun].
  { intros Hnil. fold run in Hnil. rewrite Hnil in Hread.
    by apply elem_of_nil in Hread. }
  split_and!.
  4: { intros n w'. apply cycles_quiet. set_solver. }
  all: revert Hread; unfold run; rewrite Hrun; fold full; clear Hrun;
    exec; intros Hread; in_trace; try congruence;
    try (repeat constructor; done).
  all: match goal with
       | |- ∃ pre, ?a :: ?b :: ?c :: ?rest = _ => by exists [a; b; c]
       end.
Qed.
(** *** The detector *)

Lemma deliver_grows seen fn full w seen' :
  outcome (on_entry full (deliver seen fn full) w) = Ok seen' →
  seen' = seen ∨ seen' = seen ∪ {[full]}.
Proof. exec; intros [= <-]; auto. Qed.

Lemma in_processed_iff full :
  in_processed commonpath directory processed_dir_name full = true ↔
  inside_archive full.
Proof.
  unfold in_processed, inside_archive.
  destruct (commonpath _) as [c|]; [|done].
  rewrite String.eqb_eq. split; congruence.
Qed.

Lemma bind_ext_run {A B} (m : M W A) (k k' : A → M W B) w :
  (∀ a, outcome (m w) = Ok a → k a (final (m w)) = k' a (final (m w))) →
  bind m k w = bind m k' w.
Proof.
  unfold bind, outcome, final. destruct (m w) as [[[a|e] w1] t1]; [|done].
  simpl. intros Hk. by rewrite Hk.
Qed.

(** The loop tests the seen set as it grows; the entries of one listing
    have different paths, so it decides as the set at the start would. *)
Lemma for_each_filter l seen0 seen w :
  NoDup (path_join directory <$> l) →
  seen0 ⊆ seen →
  (∀ fn, fn ∈ l → path_join directory fn ∈ seen →
         path_join directory fn ∈ seen0) →
  for_each l seen w = deliver_all (filter (eligible seen0) l) seen w.
Proof.
  revert seen w. induction l as [|fn rest IH]; intros seen w Hnd Hsub Hl; [done|].
  rewrite fmap_cons in Hnd. apply NoDup_cons in Hnd as [Hfn Hnd].
  assert (∀ fn', fn' ∈ rest → path_join directory fn' ∈ seen →
                 path_join directory fn' ∈ seen0) as Hrest.
  { intros fn' Hin. apply Hl. by right. }
  rewrite filter_cons. cbn [for_each]. unfold process_entry.
  destruct (in_processed _ _ _ _) eqn:Hip.
  { apply in_processed_iff in Hip.
    rewrite decide_False by (unfold eligible; tauto).
    rewrite ret_bind. by apply IH. }
  assert (¬ inside_archive (path_join directory fn)) as Hout.
  { rewrite <- in_processed_iff. congruence. }
  destruct (decide (path_join directory fn ∈ seen)) as [Hin|Hnin].
  { rewrite decide_False.
    - rewrite ret_bind. by apply IH.
    - unfold eligible. intros [_ Hn]. apply Hn, Hl; [by left | done]. }
  rewrite decide_True by (unfold eligible; set_solver).
  cbn [deliver_all]. apply bind_ext_run. intros s Hs.
  apply IH; [done| |].
  - destruct (deliver_grows _ _ _ _ _ Hs) as [-> | ->]; set_solver.
  - intros fn' Hin' Hseen'.
    destruct (deliver_grows _ _ _ _ _ Hs) as [-> | ->]; [by apply Hrest|].
    apply elem_of_union in Hseen' as [?|Heq%elem_of_singleton];
      [by apply Hrest|].
    destruct Hfn. rewrite <- Heq. by apply list_elem_of_fmap_2.
Qed.

Lemma path_join_inj d a b :
  startswith a "/" = false → startswith b "/" = false →
  path_join d a = path_join d b → a = b.
Proof.
  unfold path_join. intros -> ->.
  destruct (_ || _)%bool; intros Heq; apply String.app_inj in Heq; [done|].
  by apply String.app_inj in Heq.
Qed.

Lemma StronglySorted_filter {A} (R : relation A) (P : A → Prop)
    `{∀ x, Decision (P x)} (l : list A) :
  StronglySorted R l → StronglySorted R (filter P l).
Proof.
  induction 1 as [|x l Hl IH Hx]; [constructor|].
  rewrite filter_cons. destruct (decide (P x)); [|done].
  constructor; [done|]. apply Forall_forall. intros y [_ Hy]%list_elem_of_filter.
  by eapply Forall_forall in Hx.
Qed.

(** The pass of the loop after a listing that returned [names] is the
    delivery steps run over the candidate sequence, whatever function
    [commonpath] is. *)
Lemma cycle_detects names seen w w1 :
  os_listdir directory w = (Ok names, w1) →
  NoDup names →
  Forall (λ fn, startswith fn "/" = false) names →
  cycle seen w = bind (listdir directory) (λ _, cycle_on names seen) w ∧
  (∀ fn, fn ∈ candidates names seen ↔
         fn ∈ names ∧ txt_name fn ∧
         ¬ inside_archive (path_join directory fn) ∧
         path_join directory fn ∉ seen) ∧
  StronglySorted name_le (candidates names seen) ∧
  NoDup (candidates names seen) ∧
  (∀ full, commonpath [full; processed_dir directory processed_dir_name] = None →
           ¬ inside_archive full).
Proof.
  intros Hlist Hnd Hsl.
  assert (sorted (filter (λ f, is_txt f = true) names) ≡ₚ
          filter (λ f, is_txt f = true) names) as Hperm
    by apply merge_sort_Permutation.
  assert (NoDup (sorted (filter (λ f, is_txt f = true) names))) as Hnd'.
  { rewrite Hperm. by apply NoDup_filter. }
  split_and!.
  - unfold cycle, cycle_on, list_txt, try_except, listdir.
    unfold bind, perform, ret. rewrite Hlist.
    unfold candidates. rewrite (for_each_filter _ seen seen w1); [done| |done|done].
    apply NoDup_fmap_2_strong; [|done].
    intros a b Ha Hb. rewrite Hperm in Ha, Hb.
    apply list_elem_of_filter in Ha as [_ Ha], Hb as [_ Hb].
    rewrite Forall_forall in Hsl. apply path_join_inj; auto.
  - intros fn. unfold candidates. rewrite list_elem_of_filter, Hperm,
      list_elem_of_filter, is_txt_iff. unfold eligible. tauto.
  - apply StronglySorted_filter, StronglySorted_merge_sort; apply _.
  - by apply NoDup_filter.
  - unfold inside_archive. congruence.
Qed.
(** *** Errors of the listing *)

Lemma outcome_try_except {A} (m : M W A) (c : exn → bool) (h : exn → M W A) w :
  outcome (try_except m c h w) =
  match outcome (m w) with
  | Ok a => Ok a
  | Raise e => if c e then outcome (h e (final (m w))) else Raise e
  end.
Proof.
  unfold try_except, outcome, final. destruct (m w) as [[[a|e] w1] t1]; simpl; [done|].
  destruct (c e); [|done]. by destruct (h e w1) as [[? ?] ?].
Qed.

Abbreviation watch_loop n :=
  (watch_loop commonpath n directory webhook_url stage poll_interval
     processed_dir_name).

(** A pass whose listing raises something else than [FileNotFoundError]
    ends there, with that exception. *)
Lemma cycle_listing_raises seen w e w1 :
  os_listdir directory w = (Raise e, w1) →
  e ≠ FileNotFoundError →
  cycle seen w = (Raise e, w1, [(None, EvListdir directory (Raise e))]).
Proof.
  intros Hlist He.
  unfold cycle, list_txt, try_except, listdir, bind, perform.
  rewrite Hlist. by rewrite bool_decide_eq_false_2.
Qed.

(** C4, as the code has it.  Take a pass of the loop whose listing raises.
    A [FileNotFoundError] is caught and [ensure_dir] runs on the watch
    root.  When [ensure_dir] returns, the pass works on no entry and
    sleeps; the sleep returning, the pass ends with the seen set unchanged
    and the loop goes on.  When [ensure_dir] raises, nothing catches that
    error in the pass.  Any other error of the listing is not caught by the
    pass either.  An error that leaves the pass leaves the loop, and unless
    it is a [KeyboardInterrupt] it reaches the caller; a
    [KeyboardInterrupt] enters the handler of line 113. *)
Theorem listing_error_handling k n w0 seen w e w1 :
  outcome (cycles k ∅ w0) = Ok seen →
  final (cycles k ∅ w0) = w →
  os_listdir directory w = (Raise e, w1) →
  (e = FileNotFoundError →
   (∀ w2 t r w3,
      ensure_dir directory w1 = (Ok tt, w2, t) →
      time_sleep (poll_interval * 1000) w2 = (r, w3) →
      cycle seen w =
        (match r with Ok _ => Ok seen | Raise e' => Raise e' end, w3,
         (None, EvListdir directory (Raise FileNotFoundError)) ::
         t ++ [(None, EvSleep (poll_interval * 1000) r)])) ∧
   (∀ e' w2 t,
      ensure_dir directory w1 = (Raise e', w2, t) →
      cycle seen w =
        (Raise e', w2,
         (None, EvListdir directory (Raise FileNotFoundError)) :: t) ∧
      (e' ≠ KeyboardInterrupt →
       outcome (watch_loop (k + S n) w0) = Raise e'))) ∧
  (e ≠ FileNotFoundError → e ≠ KeyboardInterrupt →
   outcome (watch_loop (k + S n) w0) = Raise e) ∧
  (e = KeyboardInterrupt →
   ∀ r w2,
     logger_info "Watcher stopped by user" w1 = (r, w2) →
     outcome (watch_loop (k + S n) w0) =
       match r with Ok _ => Ok Returned | Raise e' => Raise e' end).
Proof.
  intros Hk Hw Hlist.
  assert (∀ e' w2 t, cycle seen w = (Raise e', w2, t) →
          outcome (cycles (k + S n) ∅ w0) = Raise e' ∧
          final (cycles (k + S n) ∅ w0) = w2) as Hloop.
  { intros e' w2 t Hc.
    rewrite cycles_add, outcome_bind, final_bind, Hk, Hw.
    cbn [cycles]. rewrite outcome_bind, final_bind.
    unfold outcome, final. by rewrite Hc. }
  assert (∀ e' w2 t, cycle seen w = (Raise e', w2, t) →
          e' ≠ KeyboardInterrupt →
          outcome (watch_loop (k + S n) w0) = Raise e') as Hout.
  { intros e' w2 t Hc He'. destruct (Hloop e' w2 t Hc) as [Ho _].
    unfold watch_loop. rewrite outcome_try_except, outcome_bind, Ho.
    by rewrite bool_decide_eq_false_2. }
  split_and!.
  - intros ->. split.
    + intros w2 t r w3 Hens Hsl.
      unfold cycle, list_txt, try_except, listdir, sleep, bind, perform, ret.
      rewrite Hlist. simpl. rewrite Hens. simpl. rewrite Hsl.
      destruct r as [[]|e']; simpl; by rewrite ?app_nil_r.
    + intros e' w2 t Hens.
      assert (cycle seen w =
                (Raise e', w2,
                 (None, EvListdir directory (Raise FileNotFoundError)) :: t))
        as Hc.
      { unfold cycle, list_txt, try_except, listdir, bind, perform, ret.
        rewrite Hlist. simpl. by rewrite Hens. }
      split; [done|]. by apply (Hout e' w2 _ Hc).
  - intros He Hki.
    by apply (Hout e w1 _ (cycle_listing_raises seen w e w1 Hlist He)).
  - intros -> r w2 Hlog.
    destruct (Hloop KeyboardInterrupt w1 _
                (cycle_listing_raises seen w _ w1 Hlist ltac:(done)))
      as [Ho Hf].
    unfold watch_loop. rewrite outcome_try_except, outcome_bind, Ho.
    rewrite bool_decide_eq_true_2 by done. rewrite final_bind, Ho, Hf.
    unfold log_info, bind, perform, ret, outcome. rewrite Hlog.
    by destruct r as [[]|?].
Qed.
(** *** What holds of every call of the loop *)

Lemma list_txt_names w files :
  outcome (list_txt directory w) = Ok files →
  Forall (λ f, is_txt f = true) files.
Proof.
  unfold list_txt, ensure_dir, listdir, path_exists, makedirs, try_except,
    bind, perform, ret, outcome.
  destruct (os_listdir directory w) as [[names|e] w1]; simpl.
  - intros [= <-]. apply Forall_forall. by intros f [? _]%list_elem_of_filter.
  - case_bool_decide; simpl; [|done].
    destruct (os_exists directory w1) as [[[|]|e'] w2]; simpl; [| |done].
    + by intros [= <-].
    + destruct (os_makedirs directory w2) as [[?|?] ?]; simpl; [|done].
      by intros [= <-].
Qed.

(** A property of call logs that holds of the empty log and of the
    concatenation of two logs holds of a loop whose parts have it. *)
Lemma for_each_lift (Q : list entry → Prop) files seen w :
  Q [] → (∀ a b, Q a → Q b → Q (a ++ b)) →
  (∀ fn s w', fn ∈ files → Q (trace (process_entry s fn w'))) →
  Q (trace (for_each files seen w)).
Proof.
  intros Hnil Happ. revert seen w.
  induction files as [|fn rest IH]; intros seen w Hfn; [done|].
  cbn [for_each]. rewrite trace_bind.
  assert (Q (trace (process_entry seen fn w))) as Hhead
    by (apply Hfn; by left).
  destruct (outcome (process_entry seen fn w)); [|done].
  apply Happ; [done|]. apply IH. intros fn' s w' Hin. apply Hfn. by right.
Qed.

Lemma cycle_lift (Q : list entry → Prop) seen w :
  Q [] → (∀ a b, Q a → Q b → Q (a ++ b)) →
  (∀ fn s w', is_txt fn = true → Q (trace (process_entry s fn w'))) →
  (∀ w', Q (trace (list_txt directory w'))) →
  (∀ ms r, Q [(None, EvSleep ms r)]) →
  Q (trace (cycle seen w)).
Proof.
  intros Hnil Happ Hentry Hlist Hsleep. unfold cycle. rewrite trace_bind.
  destruct (outcome (list_txt directory w)) as [files|] eqn:Hfiles; [|done].
  apply Happ; [done|]. rewrite trace_bind.
  assert (Q (trace (for_each (sorted files) seen
                      (final (list_txt directory w))))) as Hloop.
  { apply for_each_lift; [done..|]. intros fn s w' Hin. apply Hentry.
    apply list_txt_names in Hfiles. rewrite Forall_forall in Hfiles.
    apply Hfiles. unfold sorted in Hin. by rewrite merge_sort_Permutation in Hin. }
  destruct (outcome (for_each _ _ _)); [|done].
  apply Happ; [done|].
  unfold sleep, bind, perform, ret, trace.
  destruct (time_sleep _ _) as [[?|?] ?]; simpl; done.
Qed.

Lemma cycles_lift (Q : list entry → Prop) n seen w :
  Q [] → (∀ a b, Q a → Q b → Q (a ++ b)) →
  (∀ fn s w', is_txt fn = true → Q (trace (process_entry s fn w'))) →
  (∀ w', Q (trace (list_txt directory w'))) →
  (∀ ms r, Q [(None, EvSleep ms r)]) →
  Q (trace (cycles n seen w)).
Proof.
  intros Hnil Happ Hentry Hlist Hsleep. revert seen w.
  induction n as [|n IH]; intros seen w; [done|].
  cbn [cycles]. rewrite trace_bind.
  assert (Q (trace (cycle seen w))) as Hhead by by apply cycle_lift.
  destruct (outcome (cycle seen w)); [|done]. apply Happ; [done|]. apply IH.
Qed.

(** The calls of the loop are those of its passes and, after an interrupt,
    the call of the logger in the handler. *)
Lemma watch_loop_trace n w :
  ∃ tail,
    trace (watch_loop n w) = trace (cycles n ∅ w) ++ tail ∧
    (tail = [] ∨ ∃ r, tail = [(None, EvLog "Watcher stopped by user" r)]).
Proof.
  unfold watch_loop, try_except, log_info, bind, perform, ret, trace.
  destruct (cycles n ∅ w) as [[[s|e] w1] t1]; simpl.
  - exists []. split; [done | by left].
  - case_bool_decide; simpl; [|exists []; rewrite app_nil_r; split; [done | by left]].
    destruct (logger_info _ w1) as [[[]|e'] w2]; simpl;
      eexists; (split; [done | right; by eexists]).
Qed.

Lemma list_txt_guarded w prev : guarded prev (trace (list_txt directory w)).
Proof.
  unfold list_txt, ensure_dir, listdir, path_exists, makedirs, try_except,
    bind, perform, ret, trace.
  destruct (os_listdir directory w) as [[names|e] w1]; simpl; [done|].
  case_bool_decide; simpl; [|done].
  destruct (os_exists directory w1) as [[[|]|e'] w2]; simpl; [done| |done].
  destruct (os_makedirs directory w2) as [[?|?] ?]; simpl; done.
Qed.

Ltac each_call :=
  repeat (apply Forall_cons; split); try apply Forall_nil_2.

Lemma posts_shaped_app st a b :
  posts_shaped directory webhook_url stage st (a ++ b) ↔
  posts_shaped directory webhook_url stage st a ∧
  posts_shaped directory webhook_url stage (scan st a) b.
Proof.
  revert st. induction a as [|x a IH]; intros st; simpl; [tauto|].
  rewrite IH. tauto.
Qed.

Lemma scan_app st a b : scan st (a ++ b) = scan (scan st a) b.
Proof. apply fold_left_app. Qed.

Lemma plain_shaped st t :
  Forall plain t →
  posts_shaped directory webhook_url stage st t ∧ scan st t = st.
Proof.
  intros Ht. revert st. induction Ht as [|[l ev] t Hx Ht IH]; intros st; [done|].
  simpl. unfold plain in Hx. simpl in Hx.
  destruct ev; try done; unfold post_shape, scan_step; simpl;
    (split; [split; [done|]|]; apply IH).
Qed.

(** The calls of one iteration: probes; or probes and a read that
    raises; or probes, a read that returns, the POST of what lines 81-87
    build from it, and what follows the POST. *)
Lemma process_entry_shape (Q : list entry → Prop) seen fn w :
  let full := path_join directory fn in
  (∀ t, Forall plain t → Q t) →
  (∀ pre e, Forall plain pre →
     Q (pre ++ [(Some full, EvRead full (Raise e))])) →
  (∀ pre text r rest, Forall plain pre → Forall plain rest →
     Q (pre ++
        (Some full, EvRead full (Ok text)) ::
        (Some full,
         EvPost webhook_url (build_payload stage (splitext_root fn) text) 10 r) ::
        rest)) →
  Q (trace (process_entry seen fn w)).
Proof.
  intros full Hplain Hfail Hsent. unfold process_entry. fold full.
  destruct (in_processed _ _ _ _); [by apply Hplain|].
  destruct (decide _); [by apply Hplain|].
  exec;
    first [ apply Hplain; by each_call
          | apply (Hfail [_; _; _]); by each_call
          | apply (Hsent [_; _; _]); by each_call ].
Qed.

(** The calls of one iteration, read with the listing that holds its name. *)
Lemma process_entry_posts seen fn w st :
  fn ∈ st.1 → is_txt fn = true →
  posts_shaped directory webhook_url stage st
    (trace (process_entry seen fn w)) ∧
  (scan st (trace (process_entry seen fn w))).1 = st.1.
Proof.
  intros Hin Htxt%is_txt_iff. apply process_entry_shape.
  - intros t Ht.
    destruct (plain_shaped st t Ht) as [Hs ->]. done.
  - intros pre e Hpre.
    destruct (plain_shaped st pre Hpre) as [Hs Hst].
    rewrite posts_shaped_app, scan_app, Hst. done.
  - intros pre text r rest Hpre Hrest.
    destruct (plain_shaped st pre Hpre) as [Hs Hst].
    destruct (plain_shaped (st.1, None) rest Hrest) as [Hs' Hst'].
    rewrite posts_shaped_app, scan_app, Hst.
    split; [split; [done|]|].
    + cbn [posts_shaped scan_step snd fst post_shape]. split; [done|].
      split; [|done]. split_and!; [done..|]. exists fn.
      split_and!; done.
    + cbn [scan fold_left scan_step snd fst].
      change (fold_left scan_step rest (st.1, None)) with (scan (st.1, None) rest).
      by rewrite Hst'.
Qed.

Lemma for_each_posts files seen w st :
  Forall (λ fn, fn ∈ st.1 ∧ is_txt fn = true) files →
  posts_shaped directory webhook_url stage st
    (trace (for_each files seen w)) ∧
  (scan st (trace (for_each files seen w))).1 = st.1.
Proof.
  revert seen w st. induction files as [|fn rest IH]; intros seen w st Hall;
    [done|].
  apply Forall_cons in Hall as [[Hin Htxt] Hrest].
  cbn [for_each]. rewrite trace_bind.
  destruct (process_entry_posts seen fn w st Hin Htxt) as [Hhead Hst].
  destruct (outcome (process_entry seen fn w)) as [seen'|]; [|done].
  rewrite posts_shaped_app, scan_app.
  destruct (IH seen' (final (process_entry seen fn w))
              (scan st (trace (process_entry seen fn w)))) as [Htail Hst'].
  { by rewrite Hst. }
  split; [done|]. by rewrite Hst'.
Qed.

Lemma list_txt_posts w st :
  posts_shaped directory webhook_url stage st (trace (list_txt directory w)) ∧
  match outcome (list_txt directory w) with
  | Ok files =>
      Forall (λ fn, fn ∈ (scan st (trace (list_txt directory w))).1 ∧
                    is_txt fn = true) files
  | Raise _ => True
  end.
Proof.
  unfold list_txt, ensure_dir, listdir, path_exists, makedirs, try_except,
    bind, perform, ret, trace, outcome.
  destruct (os_listdir directory w) as [[names|e] w1]; simpl.
  - split; [done|]. apply Forall_forall.
    by intros f [? ?]%list_elem_of_filter.
  - case_bool_decide; simpl; [|done].
    destruct (os_exists directory w1) as [[[|]|e'] w2]; simpl; [done| |done].
    destruct (os_makedirs directory w2) as [[?|?] ?]; simpl; done.
Qed.

Lemma cycle_posts seen w st :
  posts_shaped directory webhook_url stage st (trace (cycle seen w)).
Proof.
  unfold cycle. rewrite trace_bind.
  destruct (list_txt_posts w st) as [Hlist Hfiles].
  destruct (outcome (list_txt directory w)) as [files|]; [|done].
  rewrite posts_shaped_app. split; [done|]. rewrite trace_bind.
  destruct (for_each_posts (sorted files) seen (final (list_txt directory w))
              (scan st (trace (list_txt directory w)))) as [Hloop _].
  { unfold sorted. by rewrite merge_sort_Permutation. }
  destruct (outcome (for_each _ _ _)); [|done].
  rewrite posts_shaped_app. split; [done|].
  unfold sleep, bind, perform, ret, trace.
  destruct (time_sleep _ _) as [[?|?] ?]; simpl; done.
Qed.

Lemma process_entry_file_calls seen fn w :
  is_txt fn = true →
  Forall (file_call_shape directory processed_dir_name)
    (trace (process_entry seen fn w)).
Proof.
  intros Htxt. unfold process_entry.
  destruct (in_processed _ _ _ _); [constructor|].
  destruct (decide _); [constructor|].
  exec; each_call; unfold file_call_shape; simpl; try done.
  all: first [by exists fn | by eexists fn, _].
Qed.

Lemma process_entry_no_makedirs seen fn w :
  Forall (λ x : entry, is_makedirs x.2 = false)
    (trace (process_entry seen fn w)).
Proof.
  unfold process_entry.
  destruct (in_processed _ _ _ _); [constructor|].
  destruct (decide _); [constructor|].
  exec; by each_call.
Qed.

Lemma process_entry_label seen fn w :
  Forall (λ x : entry, x.1 = Some (path_join directory fn))
    (trace (process_entry seen fn w)).
Proof.
  unfold process_entry.
  destruct (in_processed _ _ _ _); [constructor|].
  destruct (decide _); [constructor|].
  unfold on_entry, trace. destruct (deliver _ _ _ _) as [[? ?] t]. simpl.
  apply Forall_forall. by intros x (y & -> & _)%list_elem_of_fmap.
Qed.

Lemma process_entry_one_post seen fn w :
  (length (filter (λ x : entry, is_post x.2 = true)
             (trace (process_entry seen fn w))) ≤ 1)%nat.
Proof.
  unfold process_entry.
  destruct (in_processed _ _ _ _); [simpl; lia|].
  destruct (decide _); [simpl; lia|].
  exec; vm_compute; lia.
Qed.
Lemma trace_bind_lift {A B} (Q : list entry → Prop) (m : M W A)
    (k : A → M W B) w :
  (∀ a b, Q a → Q b → Q (a ++ b)) →
  Q (trace (m w)) → (∀ a w', Q (trace (k a w'))) → Q (trace (bind m k w)).
Proof.
  intros Happ Hm Hk. rewrite trace_bind. destruct (outcome (m w)); [|done].
  by apply Happ.
Qed.

Lemma list_txt_Forall (P : entry → Prop) w :
  (∀ r, P (None, EvListdir directory r)) →
  (∀ r, P (None, EvExists directory r)) →
  (∀ r, P (None, EvMakedirs directory r)) →
  Forall P (trace (list_txt directory w)).
Proof.
  intros Hl He Hm.
  unfold list_txt, ensure_dir, listdir, path_exists, makedirs, try_except,
    bind, perform, ret, trace.
  destruct (os_listdir directory w) as [[names|e] w1]; simpl; [by each_call|].
  case_bool_decide; simpl; [|by each_call].
  destruct (os_exists directory w1) as [[[|]|e'] w2]; simpl; try by each_call.
  destruct (os_makedirs directory w2) as [[?|?] ?]; simpl; by each_call.
Qed.

Lemma cycles_Forall (P : entry → Prop) n seen w :
  (∀ fn s w', is_txt fn = true → Forall P (trace (process_entry s fn w'))) →
  (∀ r, P (None, EvListdir directory r)) →
  (∀ r, P (None, EvExists directory r)) →
  (∀ r, P (None, EvMakedirs directory r)) →
  (∀ ms r, P (None, EvSleep ms r)) →
  Forall P (trace (cycles n seen w)).
Proof.
  intros Hentry Hl He Hm Hs. apply cycles_lift; [constructor| |done| |].
  - intros a b Ha Hb. apply Forall_app. by split.
  - intros w'. by apply list_txt_Forall.
  - intros ms r. by each_call.
Qed.

Lemma cycles_posts n seen w st :
  posts_shaped directory webhook_url stage st (trace (cycles n seen w)).
Proof.
  revert seen w st. induction n as [|n IH]; intros seen w st; [done|].
  cbn [cycles]. rewrite trace_bind.
  pose proof (cycle_posts seen w st) as Hhead.
  destruct (outcome (cycle seen w)); [|done].
  rewrite posts_shaped_app. split; [done|]. apply IH.
Qed.

Lemma cycles_file_calls n seen w :
  Forall (file_call_shape directory processed_dir_name)
    (trace (cycles n seen w)).
Proof.
  apply cycles_Forall; [|done..].
  intros fn s w'. apply process_entry_file_calls.
Qed.

Lemma guarded_app prev a b :
  guarded prev a → (∀ prev', guarded prev' b) → guarded prev (a ++ b).
Proof.
  revert prev. induction a as [|x a IH]; intros prev Ha Hb; [apply Hb|].
  destruct Ha as [Hx Ha]. split; [done|]. by apply IH.
Qed.

Lemma guarded_no_makedirs t prev :
  Forall (λ x : entry, is_makedirs x.2 = false) t → guarded prev t.
Proof.
  intros Ht. revert prev. induction Ht as [|x t Hx Ht IH]; intros prev; [done|].
  split; [|apply IH]. by destruct (x.2).
Qed.

Lemma cycles_guarded n seen w prev : guarded prev (trace (cycles n seen w)).
Proof.
  revert prev. apply (cycles_lift (λ t, ∀ prev, guarded prev t)); [done| | | |].
  - intros a b Ha Hb prev. by apply guarded_app.
  - intros fn s w' _ prev. apply guarded_no_makedirs, process_entry_no_makedirs.
  - intros w' prev. apply list_txt_guarded.
  - done.
Qed.

(** *** The iteration that archives *)

(** X4. An iteration that calls [os.rename] has made exactly these calls: two
    size probes that agree, a read and a POST that succeeded, the clock;
    the rename moves the entry to its archive name. *)
Theorem rename_follows_success seen fn w l src dst r :
  let full := path_join directory fn in
  let run := process_entry seen fn w in
  (l, EvRename src dst r) ∈ trace run →
  ∃ size text resp d,
    success (status_code resp) = true ∧
    trace run =
      [(Some full, EvGetsize full (Ok size));
       (Some full, EvSleep 200 (Ok tt));
       (Some full, EvGetsize full (Ok size));
       (Some full, EvRead full (Ok text));
       (Some full, EvPost webhook_url
                     (build_payload stage (splitext_root fn) text) 10 (Ok resp));
       (Some full, EvUtcnow (Ok d));
       (Some full, EvRename full
                     (path_join (processed_dir directory processed_dir_name)
                        (archive_name (splitext_root fn) d)) r)] ∧
    l = Some full ∧ src = full.
Proof.
  intros full run Hin.
  destruct (process_entry_calls seen fn w) as [_ Hrun].
  { intros Hnil. fold run in Hnil. rewrite Hnil in Hin.
    by apply elem_of_nil in Hin. }
  revert Hin. unfold run. rewrite Hrun. fold full. clear Hrun.
  exec; intros Hin; in_trace;
    repeat match goal with u : unit |- _ => destruct u end;
    eexists _, _, _, _; (split; [|split; [reflexivity|done]]); eassumption.
Qed.

(** *** Where the seen set comes from *)

Lemma settled_app p a b : settled p a ∨ settled p b → settled p (a ++ b).
Proof.
  unfold settled.
  intros [[(e & ? & ?) | (u & b0 & t & r & ? & ?)]
         |[(e & ? & ?) | (u & b0 & t & r & ? & ?)]].
  - left. exists e. split; [done|]. apply elem_of_app. by left.
  - right. exists u, b0, t, r. split; [done|]. apply elem_of_app. by left.
  - left. exists e. split; [done|]. apply elem_of_app. by right.
  - right. exists u, b0, t, r. split; [done|]. apply elem_of_app. by right.
Qed.

Lemma accounted_refl seen : accounted seen seen [].
Proof. split; [done|]. intros p Hp. by left. Qed.

Lemma accounted_app s1 s2 s3 a b :
  accounted s1 s2 a → accounted s2 s3 b → accounted s1 s3 (a ++ b).
Proof.
  intros [Hsub1 H1] [Hsub2 H2]. split; [set_solver|].
  intros p Hp. destruct (H2 p Hp) as [Hp2|Hb].
  - destruct (H1 p Hp2) as [?|Ha]; [by left|].
    right. apply settled_app. by left.
  - right. apply settled_app. by right.
Qed.

Lemma accounted_frame seen seen' pre t post :
  accounted seen seen' t → accounted seen seen' (pre ++ t ++ post).
Proof.
  intros [Hsub Ht]. split; [done|]. intros p Hp.
  destruct (Ht p Hp) as [?|Hs]; [by left|]. right.
  apply settled_app. right. apply settled_app. by left.
Qed.

Ltac pick_call :=
  repeat first [apply list_elem_of_here | apply list_elem_of_further].

Lemma process_entry_accounted seen fn w seen' :
  outcome (process_entry seen fn w) = Ok seen' →
  accounted seen seen' (trace (process_entry seen fn w)).
Proof.
  unfold process_entry.
  destruct (in_processed _ _ _ _); [intros [= <-]; apply accounted_refl|].
  destruct (decide _); [intros [= <-]; apply accounted_refl|].
  exec; intros [= <-]; (split; [set_solver|]); intros p Hp;
    try (by left);
    (apply elem_of_union in Hp as [?|Hp%elem_of_singleton]; [by left|]);
    subst p; right; unfold settled, success.
  all: first
    [ left; eexists; split; [eassumption | by pick_call]
    | right; eexists _, _, _, _; split; [eassumption | by pick_call] ].
Qed.

Lemma for_each_accounted files seen w seen' :
  outcome (for_each files seen w) = Ok seen' →
  accounted seen seen' (trace (for_each files seen w)).
Proof.
  revert seen w. induction files as [|fn rest IH]; intros seen w.
  - intros [= <-]. apply accounted_refl.
  - cbn [for_each]. rewrite outcome_bind, trace_bind.
    destruct (outcome (process_entry seen fn w)) as [s|] eqn:Hs; [|done].
    intros Hrest. eapply accounted_app; [by apply process_entry_accounted|].
    by apply IH.
Qed.

Lemma cycle_accounted seen w seen' :
  outcome (cycle seen w) = Ok seen' →
  accounted seen seen' (trace (cycle seen w)).
Proof.
  unfold cycle. rewrite outcome_bind, trace_bind.
  destruct (outcome (list_txt directory w)) as [files|]; [|done].
  rewrite outcome_bind, trace_bind.
  destruct (outcome (for_each _ _ _)) as [s|] eqn:Hs; [|done].
  apply for_each_accounted in Hs. rewrite outcome_bind.
  destruct (outcome (sleep _ _)); [|done]. intros [= <-].
  by apply accounted_frame.
Qed.

(** X6. The seen set only grows over the passes of the loop, and every path
    that came in has, among the calls made, a read of it that raised or a
    POST for it that was answered with a status in [200, 300). *)
Theorem seen_set_accounted n seen w seen' :
  outcome (cycles n seen w) = Ok seen' →
  accounted seen seen' (trace (cycles n seen w)).
Proof.
  revert seen w. induction n as [|n IH]; intros seen w.
  - intros [= <-]. apply accounted_refl.
  - cbn [cycles]. rewrite outcome_bind, trace_bind.
    destruct (outcome (cycle seen w)) as [s|] eqn:Hs; [|done].
    intros Hrest. eapply accounted_app; [by apply cycle_accounted|].
    by apply IH.
Qed.
(** *** One POST for a path in a pass *)

Lemma posts_for_app p a b : posts_for p (a ++ b) = posts_for p a ++ posts_for p b.
Proof. apply filter_app. Qed.

Lemma posts_for_other p t :
  Forall (λ x : entry, x.1 ≠ Some p) t → posts_for p t = [].
Proof.
  induction 1 as [|x t Hx Ht IH]; [done|].
  unfold posts_for. rewrite filter_cons, decide_False by tauto. apply IH.
Qed.

Lemma process_entry_posts_for seen fn w p :
  (length (posts_for p (trace (process_entry seen fn w))) ≤ 1)%nat ∧
  (p ≠ path_join directory fn →
   posts_for p (trace (process_entry seen fn w)) = []).
Proof.
  split.
  - unfold posts_for.
    rewrite <- (list_filter_filter (λ x : entry, x.1 = Some p)
                  (λ x : entry, is_post x.2 = true)).
    etrans; [apply length_filter|]. apply process_entry_one_post.
  - intros Hne. apply posts_for_other.
    eapply Forall_impl; [apply process_entry_label|].
    intros x Hx. simpl in Hx. congruence.
Qed.

Lemma for_each_posts_other files seen w p :
  p ∉ path_join directory <$> files →
  posts_for p (trace (for_each files seen w)) = [].
Proof.
  revert seen w. induction files as [|fn rest IH]; intros seen w Hp; [done|].
  rewrite fmap_cons in Hp. apply not_elem_of_cons in Hp as [Hne Hp].
  cbn [for_each]. rewrite trace_bind.
  destruct (process_entry_posts_for seen fn w p) as [_ Hhead].
  destruct (outcome (process_entry seen fn w)); [|by apply Hhead].
  rewrite posts_for_app, Hhead by done. by apply IH.
Qed.

Lemma for_each_posts_for files seen w p :
  NoDup (path_join directory <$> files) →
  (length (posts_for p (trace (for_each files seen w))) ≤ 1)%nat.
Proof.
  revert seen w. induction files as [|fn rest IH]; intros seen w Hnd;
    [simpl; lia|].
  rewrite fmap_cons in Hnd. apply NoDup_cons in Hnd as [Hfn Hnd].
  cbn [for_each]. rewrite trace_bind.
  destruct (process_entry_posts_for seen fn w p) as [Hone Hother].
  destruct (outcome (process_entry seen fn w)); [|done].
  rewrite posts_for_app, length_app.
  destruct (decide (p = path_join directory fn)) as [->|Hne].
  - rewrite for_each_posts_other by done. simpl. lia.
  - rewrite Hother by done. simpl. by apply IH.
Qed.

Lemma sorted_txt_NoDup names :
  NoDup names →
  Forall (λ fn, startswith fn "/" = false) names →
  NoDup (path_join directory <$> sorted (filter (λ f, is_txt f = true) names)).
Proof.
  intros Hnd Hsl.
  assert (sorted (filter (λ f, is_txt f = true) names) ≡ₚ
          filter (λ f, is_txt f = true) names) as Hperm
    by apply merge_sort_Permutation.
  apply NoDup_fmap_2_strong.
  - intros a b Ha Hb. rewrite Hperm in Ha, Hb.
    apply list_elem_of_filter in Ha as [_ Ha], Hb as [_ Hb].
    rewrite Forall_forall in Hsl. apply path_join_inj; auto.
  - rewrite Hperm. by apply NoDup_filter.
Qed.

Lemma list_txt_ok w names w1 :
  os_listdir directory w = (Ok names, w1) →
  list_txt directory w =
    (Ok (filter (λ f, is_txt f = true) names), w1,
     [(None, EvListdir directory (Ok names))]).
Proof.
  intros Hlist. unfold list_txt, try_except, listdir, bind, perform, ret.
  by rewrite Hlist.
Qed.

(** X7. In a pass whose listing holds no name twice, at most one POST is made
    for any path. *)
Theorem one_post_per_pass seen w names w1 p :
  os_listdir directory w = (Ok names, w1) →
  NoDup names →
  Forall (λ fn, startswith fn "/" = false) names →
  (length (posts_for p (trace (cycle seen w))) ≤ 1)%nat.
Proof.
  intros Hlist Hnd Hsl. unfold cycle. rewrite trace_bind.
  unfold outcome, final, trace at 1. rewrite (list_txt_ok w names w1 Hlist).
  cbn [fst snd]. rewrite trace_bind, !posts_for_app.
  pose proof (for_each_posts_for
                (sorted (filter (λ f, is_txt f = true) names)) seen w1 p
                (sorted_txt_NoDup names Hnd Hsl)) as Hloop.
  assert (posts_for p [(None, EvListdir directory (Ok names))] = []) as ->
    by (unfold posts_for; rewrite filter_cons, decide_False by (simpl; intuition congruence); done).
  destruct (outcome (for_each _ _ _)); [|done].
  rewrite posts_for_app, length_app.
  assert (∀ (s : gset string) w', posts_for p
            (trace (bind (sleep (poll_interval * 1000)) (λ _, ret s) w')) = [])
    as Hsleep.
  { intros s w'. unfold sleep, bind, perform, ret, trace.
    destruct (time_sleep _ _) as [[?|?] ?]; simpl;
      unfold posts_for; rewrite filter_cons, decide_False by (simpl; intuition congruence); done. }
  rewrite Hsleep, app_nil_r. simpl. lia.
Qed.
(** *** What is sent *)

(** X5. A POST comes fifth in its iteration, after two size probes that agree
    and a read that succeeded, and its body carries the text of that read. *)
Theorem post_follows_stable_read seen fn w l url body timeout r :
  let full := path_join directory fn in
  let run := process_entry seen fn w in
  (l, EvPost url body timeout r) ∈ trace run →
  ∃ size text rest,
    trace run =
      [(Some full, EvGetsize full (Ok size));
       (Some full, EvSleep 200 (Ok tt));
       (Some full, EvGetsize full (Ok size));
       (Some full, EvRead full (Ok text));
       (Some full, EvPost webhook_url
                     (build_payload stage (splitext_root fn) text) 10 r)]
      ++ rest ∧
    Forall (λ x : entry, is_post x.2 = false) rest ∧
    l = Some full ∧ url = webhook_url ∧ timeout = 10 ∧
    body = build_payload stage (splitext_root fn) text.
Proof.
  intros full run Hin.
  destruct (process_entry_calls seen fn w) as [_ Hrun].
  { intros Hnil. fold run in Hnil. rewrite Hnil in Hin.
    by apply elem_of_nil in Hin. }
  revert Hin. unfold run. rewrite Hrun. fold full. clear Hrun.
  exec; intros Hin; in_trace;
    repeat match goal with u : unit |- _ => destruct u end;
    eexists _, _, _; (split; [reflexivity|]); split_and!; try done;
    by each_call.
Qed.
End Iteration.

(** ** The whole of [watch_and_post] *)

Section Program.
Context {W : Type} `{OS W}.
Variable commonpath : list string → option string.
Variables (n : nat) (dir webhook_url : string) (stage : bool)
          (poll_interval : Z) (processed_dir_name : string).

Abbreviation watch_and_post :=
  (watch_and_post commonpath n dir webhook_url stage poll_interval
     processed_dir_name).

Lemma ensure_dir_Forall (P : entry → Prop) path (w : W) :
  (∀ r, P (None, EvExists path r)) →
  (∀ r, P (None, EvMakedirs path r)) →
  Forall P (trace (ensure_dir path w)).
Proof.
  intros He Hm. unfold ensure_dir, path_exists, makedirs, bind, perform, ret, trace.
  destruct (os_exists path w) as [[[|]|e] w1]; simpl;
    try (repeat constructor; done).
  destruct (os_makedirs path w1) as [[?|?] ?]; simpl; repeat constructor; done.
Qed.

Lemma ensure_dir_guarded path (w : W) prev :
  guarded prev (trace (ensure_dir path w)).
Proof.
  unfold ensure_dir, path_exists, makedirs, bind, perform, ret, trace.
  destruct (os_exists path w) as [[[|]|e] w1]; simpl; try done.
  destruct (os_makedirs path w1) as [[?|?] ?]; simpl; done.
Qed.

(** After [abspath] has answered, the rest runs with its answer. *)
Lemma watch_and_post_started (w : W) directory w1 :
  os_abspath dir w = (Ok directory, w1) →
  let rest :=
    bind (ensure_dir directory)
      (λ _, bind (ensure_dir (processed_dir directory processed_dir_name))
              (λ _, watch_loop commonpath n directory webhook_url stage
                      poll_interval processed_dir_name)) w1 in
  watch_and_post w =
    (outcome rest, final rest,
     (None, EvAbspath dir (Ok directory)) :: trace rest).
Proof.
  intros Habs rest. unfold watch_and_post, abspath. unfold bind at 1, perform.
  rewrite Habs. fold rest. by destruct rest as [[? ?] ?].
Qed.

Lemma started_Forall (P : entry → Prop) (w : W) directory w1 :
  os_abspath dir w = (Ok directory, w1) →
  (∀ p r, P (None, EvAbspath p r)) →
  (∀ p r, P (None, EvExists p r)) →
  (∀ p r, P (None, EvMakedirs p r)) →
  (∀ m r, P (None, EvLog m r)) →
  (∀ w', Forall P (trace (cycles commonpath directory webhook_url stage
                            poll_interval processed_dir_name n ∅ w'))) →
  Forall P (trace (watch_and_post w)).
Proof.
  intros Habs Ha He Hm Hlog Hloop.
  rewrite (watch_and_post_started w directory w1 Habs). cbn [trace snd].
  constructor; [done|].
  apply trace_bind_Forall; [by apply ensure_dir_Forall|]. intros _ _.
  apply trace_bind_Forall; [by apply ensure_dir_Forall|]. intros _ _.
  destruct (watch_loop_trace commonpath directory webhook_url stage
              poll_interval processed_dir_name n
              (final (ensure_dir (processed_dir directory processed_dir_name)
                        (final (ensure_dir directory w1)))))
    as (tail & -> & [->|[r ->]]); apply Forall_app; split;
    first [apply Hloop | by repeat constructor].
Qed.

(** X8. Every POST the program makes goes to the configured URL with a
    timeout of ten seconds.  It is made in the iteration of a name that the
    last listing of the watch root returned and that ends in [.txt], and
    its body carries the meeting id cut from that name as [meeting_id] and
    as [title], the text that the read of that entry returned just before
    as [transcript], no attendees, and the configured staging flag. *)
Theorem every_post_shaped (w : W) directory w1 :
  os_abspath dir w = (Ok directory, w1) →
  posts_shaped directory webhook_url stage ([], None)
    (trace (watch_and_post w)).
Proof.
  intros Habs.
  rewrite (watch_and_post_started w directory w1 Habs). cbn [trace snd].
  split; [done|]. cbn [scan_step snd].
  rewrite trace_bind.
  destruct (plain_shaped directory webhook_url stage ([], None)
              (trace (ensure_dir directory w1))) as [Hs1 Hst1];
    [by apply ensure_dir_Forall|].
  destruct (outcome (ensure_dir directory w1)); [|done].
  rewrite posts_shaped_app, Hst1. split; [done|]. rewrite trace_bind.
  destruct (plain_shaped directory webhook_url stage ([], None)
              (trace (ensure_dir (processed_dir directory processed_dir_name)
                        (final (ensure_dir directory w1))))) as [Hs2 Hst2];
    [by apply ensure_dir_Forall|].
  destruct (outcome (ensure_dir (processed_dir directory processed_dir_name) _));
    [|done].
  rewrite posts_shaped_app, Hst2. split; [done|].
  destruct (watch_loop_trace commonpath directory webhook_url stage
              poll_interval processed_dir_name n
              (final (ensure_dir (processed_dir directory processed_dir_name)
                        (final (ensure_dir directory w1)))))
    as (tail & -> & Htail).
  rewrite posts_shaped_app. split; [apply cycles_posts|].
  by destruct Htail as [->|[r ->]].
Qed.

(** X9. Every size probe and every read the program makes is on a [.txt] name
    joined to the watch root, in the iteration of that entry, and every
    rename moves such an entry to its archive name joined to the archive
    subdirectory. *)
Theorem every_file_call_shaped (w : W) directory w1 :
  os_abspath dir w = (Ok directory, w1) →
  Forall (file_call_shape directory processed_dir_name)
    (trace (watch_and_post w)).
Proof.
  intros Habs. apply (started_Forall _ w directory w1 Habs); try done.
  intros w'. apply cycles_file_calls.
Qed.

(** X10. Wherever [os.makedirs] is called, at startup or after a listing that
    found the watch root missing, the call before it is an
    [os.path.exists] of the same path that answered [False]. *)
Theorem makedirs_only_when_missing (w : W) :
  guarded None (trace (watch_and_post w)).
Proof.
  generalize (@None entry).
  unfold watch_and_post.
  apply (trace_bind_lift (λ t, ∀ prev, guarded prev t)).
  - intros a b Ha Hb prev. by apply guarded_app.
  - intros prev. unfold abspath, perform, trace.
    by destruct (os_abspath dir w) as [? ?].
  - intros directory w1.
    apply (trace_bind_lift (λ t, ∀ prev, guarded prev t)).
    + intros a b Ha Hb prev. by apply guarded_app.
    + intros prev. apply ensure_dir_guarded.
    + intros _ w2.
      apply (trace_bind_lift (λ t, ∀ prev, guarded prev t)).
      * intros a b Ha Hb prev. by apply guarded_app.
      * intros prev. apply ensure_dir_guarded.
      * intros _ w3 prev.
        destruct (watch_loop_trace commonpath directory webhook_url stage
                    poll_interval processed_dir_name n w3)
          as (tail & -> & [->|[r ->]]);
          (apply guarded_app; [apply cycles_guarded | done]).
Qed.

(** How the loop ends: still looping after [n] passes, or with the error
    of a pass that line 113 does not catch, or, after a
    [KeyboardInterrupt], as the call of the logger in the handler ends. *)
Lemma watch_loop_cases directory (w : W) :
  let passes :=
    cycles commonpath directory webhook_url stage poll_interval
      processed_dir_name n ∅ w in
  let loop :=
    watch_loop commonpath n directory webhook_url stage poll_interval
      processed_dir_name w in
  match outcome passes with
  | Ok s => loop = (Ok (Looping s), final passes, trace passes)
  | Raise e =>
      if bool_decide (e = KeyboardInterrupt)
      then ∃ r w2,
             logger_info "Watcher stopped by user" (final passes) = (r, w2) ∧
             loop = (match r with Ok _ => Ok Returned | Raise e' => Raise e' end,
                     w2,
                     trace passes ++ [(None, EvLog "Watcher stopped by user" r)])
      else loop = (Raise e, final passes, trace passes)
  end.
Proof.
  intros passes loop. unfold loop, watch_loop, try_except, log_info, bind,
    perform, ret, outcome, final, trace. fold passes.
  destruct passes as [[[s|e] w1] t1]; simpl.
  - by rewrite app_nil_r.
  - case_bool_decide; [|done].
    destruct (logger_info _ w1) as [r w2]. exists r, w2. split; [done|].
    destruct r as [[]|e']; simpl; by rewrite ?app_nil_r.
Qed.

End Program.

(** ** The pace of the loop *)

Section Pace.
Context {W : Type} `{OS W}.
Variable commonpath : list string → option string.
Variables (directory webhook_url : string) (stage : bool)
          (poll_interval : Z) (processed_dir_name : string).

Abbreviation cycle :=
  (cycle commonpath directory webhook_url stage poll_interval processed_dir_name).
Abbreviation cycles :=
  (cycles commonpath directory webhook_url stage poll_interval processed_dir_name).

(** The calls of the iterations belong to an entry, so a test that only
    calls outside the [for] loop pass finds none among them. *)
Lemma for_each_outside (f : entry → bool) files seen (w : W) :
  (∀ x, f x = true → x.1 = None) →
  filter (λ x, f x = true)
    (trace (for_each commonpath directory webhook_url stage processed_dir_name
              files seen w)) = [].
Proof.
  intros Hf. apply (for_each_lift _ _ _ _ _ (λ t, filter (λ x, f x = true) t = [])).
  - done.
  - intros a b Ha Hb. by rewrite filter_app, Ha, Hb.
  - intros fn s w' _.
    pose proof (process_entry_label commonpath directory webhook_url stage
                  processed_dir_name s fn w') as Hlab.
    induction Hlab as [|x t Hx Ht IH]; [done|].
    rewrite filter_cons, decide_False; [done|].
    intros Hfx%Hf. congruence.
Qed.

Lemma list_txt_pace (w : W) ms :
  length (filter (λ x, is_listing x = true) (trace (list_txt directory w))) = 1%nat ∧
  filter (λ x, is_poll_sleep ms x = true) (trace (list_txt directory w)) = [].
Proof.
  unfold list_txt, ensure_dir, listdir, path_exists, makedirs, try_except,
    bind, perform, ret, trace.
  destruct (os_listdir directory w) as [[names|e] w1]; simpl; [done|].
  case_bool_decide; simpl; [|done].
  destruct (os_exists directory w1) as [[[|]|e'] w2]; simpl; try done.
  destruct (os_makedirs directory w2) as [[?|?] ?]; simpl; done.
Qed.

Lemma cycle_pace seen (w : W) seen' :
  outcome (cycle seen w) = Ok seen' →
  length (filter (λ x, is_listing x = true) (trace (cycle seen w))) = 1%nat ∧
  length (filter (λ x, is_poll_sleep (poll_interval * 1000) x = true)
            (trace (cycle seen w))) = 1%nat.
Proof.
  unfold cycle. rewrite outcome_bind, trace_bind.
  destruct (list_txt_pace w (poll_interval * 1000)) as [Hl1 Hl2].
  destruct (outcome (list_txt directory w)) as [files|]; [|done].
  rewrite outcome_bind, trace_bind.
  pose proof (for_each_outside is_listing (sorted files) seen
                (final (list_txt directory w))) as Hf1.
  pose proof (for_each_outside (is_poll_sleep (poll_interval * 1000))
                (sorted files) seen (final (list_txt directory w))) as Hf2.
  destruct (outcome (for_each _ _ _ _ _ _ _ _)) as [s|]; [|done].
  rewrite !filter_app, !length_app, Hl1, Hl2, Hf1, Hf2.
  2: { intros [[l|] e] Hx; [|done]. by destruct e. }
  2: { intros [[l|] e] Hx; [|done]. by destruct e. }
  unfold sleep, bind, perform, ret, outcome, trace.
  destruct (time_sleep _ _) as [[[]|?] ?]; simpl; [|done].
  intros _. rewrite filter_cons, decide_True by (simpl; by rewrite Z.eqb_refl).
  done.
Qed.

(** X12. [n] passes that ran to their end made [n] listings of the watch root
    and slept the poll interval [n] times, once at the end of each pass. *)
Theorem one_listing_one_sleep_per_pass n seen (w : W) seen' :
  outcome (cycles n seen w) = Ok seen' →
  length (filter (λ x, is_listing x = true) (trace (cycles n seen w))) = n ∧
  length (filter (λ x, is_poll_sleep (poll_interval * 1000) x = true)
            (trace (cycles n seen w))) = n.
Proof.
  revert seen w. induction n as [|n IH]; intros seen w; [done|].
  change (cycles (S n) seen w) with
    (bind (cycle seen) (cycles n) w).
  rewrite outcome_bind, trace_bind.
  destruct (outcome (cycle seen w)) as [s|] eqn:Hs; [|done].
  destruct (cycle_pace seen w s Hs) as [H1 H2]. intros Hrest.
  destruct (IH _ _ Hrest) as [H3 H4].
  rewrite !filter_app, !length_app, H1, H2, H3, H4. done.
Qed.
End Pace.

(** ** The archive test on POSIX *)

(** A component: not empty, without separator. *)
Definition component (c : string) : Prop := c ≠ "" ∧ contains "/" c = false.

Lemma split_from_sep_free s cur :
  contains "/" cur = false →
  Forall (λ c, contains "/" c = false) (Posix.split_from s cur).
Proof.
  revert cur. induction s as [|c s IH]; intros cur Hcur; simpl.
  - by constructor.
  - destruct (Ascii.eqb_spec c "/") as [->|Hne].
    + constructor; [done|]. by apply IH.
    + apply IH. rewrite contains_app, Hcur. cbn [contains orb].
      rewrite orb_false_r. apply Ascii.eqb_neq. congruence.
Qed.

Lemma comps_components p : Forall component (Posix.comps p).
Proof.
  unfold Posix.comps, Posix.split_sep. apply Forall_forall.
  intros c [Hreal Hin]%list_elem_of_filter. split.
  - intros ->. done.
  - pose proof (split_from_sep_free p "" eq_refl) as Hall.
    rewrite Forall_forall in Hall. by apply Hall.
Qed.

(** A string that is empty or begins with the separator. *)
Definition at_sep (x : string) : Prop := x = "" ∨ ∃ y, x = String "/" y.

Lemma sep_free_split a b x y :
  contains "/" a = false → contains "/" b = false →
  at_sep x → at_sep y →
  a +:+ x = b +:+ y → a = b ∧ x = y.
Proof.
  revert b. induction a as [|c a IH]; intros [|d b] Ha Hb Hx Hy;
    rewrite ?app_cons, ?app_nil; intros Heq.
  - done.
  - subst x. destruct Hx as [[=]|[z [= -> _]]]. simpl in Hb. done.
  - subst y. destruct Hy as [[=]|[z [= -> _]]]. simpl in Ha. done.
  - injection Heq as -> Heq. simpl in Ha, Hb.
    apply orb_false_iff in Ha as [_ Ha], Hb as [_ Hb].
    destruct (IH b Ha Hb Hx Hy Heq) as [-> ->]. done.
Qed.

(** What follows the first component in [join_sep]. *)
Definition join_tail (rest : list string) : string :=
  match rest with
  | [] => ""
  | _ => "/" +:+ Posix.join_sep rest
  end.

Lemma join_sep_cons c rest : Posix.join_sep (c :: rest) = c +:+ join_tail rest.
Proof.
  destruct rest as [|d rest]; simpl.
  - induction c as [|x c IH]; [done|]. by rewrite app_cons, <- IH.
  - done.
Qed.

Lemma join_tail_at_sep rest : at_sep (join_tail rest).
Proof. destruct rest; [by left | right; by eexists]. Qed.

Lemma join_sep_inj l1 l2 :
  Forall component l1 → Forall component l2 →
  Posix.join_sep l1 = Posix.join_sep l2 → l1 = l2.
Proof.
  intros H1. revert l2. induction H1 as [|c1 r1 [Hne1 Hc1] Hr1 IH];
    intros l2 H2 Heq.
  - destruct H2 as [|c2 r2 [Hne2 _] _]; [done|].
    rewrite join_sep_cons in Heq. simpl in Heq.
    destruct c2; [done | discriminate].
  - destruct H2 as [|c2 r2 [Hne2 Hc2] Hr2].
    + rewrite join_sep_cons in Heq. simpl in Heq.
      destruct c1; [done | discriminate].
    + rewrite !join_sep_cons in Heq.
      apply sep_free_split in Heq as [-> Ht];
        [|done|done|apply join_tail_at_sep..].
      f_equal. destruct r1 as [|d1 r1], r2 as [|d2 r2]; simpl in Ht;
        [done|discriminate|discriminate|].
      apply String.app_inj in Ht. by apply IH.
Qed.

Lemma common_prefix_Forall (P : string → Prop) a b :
  Forall P a → Forall P (Posix.common_prefix a b).
Proof.
  intros Ha. revert b. induction Ha as [|x a Hx Ha IH]; intros [|y b]; simpl;
    try by constructor.
  destruct (String.eqb x y); constructor; auto.
Qed.

Lemma common_prefix_is a b :
  Posix.common_prefix a b = b ↔ b `prefix_of` a.
Proof.
  revert b. induction a as [|x a IH]; intros [|y b]; simpl.
  - split; [intros _; by exists [] | done].
  - split; [done | intros [k Hk]; discriminate].
  - split; [intros _; by eexists | done].
  - destruct (String.eqb_spec x y) as [->|Hne].
    + split.
      * intros [= Hc]. apply IH in Hc as [k ->]. by exists k.
      * intros [k [= Hk]]. f_equal. apply IH. by exists k.
    + split; [done | intros [k [= ? _]]; done].
Qed.

(** For an absolute path and a directory written in normal form, the test
    of lines 52-54 holds exactly of the paths that lie inside the
    directory. *)
Lemma commonpath_inside full dir :
  startswith full "/" = true →
  normal_path dir →
  Posix.commonpath [full; dir] = Some dir ↔ lies_inside full dir.
Proof.
  intros Hfull [Hdir _]. unfold lies_inside.
  assert (startswith dir "/" = true) as Habs.
  { rewrite Hdir, app_cons. cbn [startswith].
    rewrite app_nil. destruct (Posix.join_sep _); reflexivity. }
  unfold Posix.commonpath. rewrite Hfull. cbn [forallb map fold_left].
  rewrite Habs. cbn [Bool.eqb andb]. rewrite <- common_prefix_is. split.
  - intros [= Heq].
    assert ("/" +:+ Posix.join_sep
              (Posix.common_prefix (Posix.comps full) (Posix.comps dir)) =
            "/" +:+ Posix.join_sep (Posix.comps dir)) as Heq'
      by (by rewrite <- Hdir).
    apply String.app_inj in Heq'. apply join_sep_inj in Heq'; [done| |].
    + apply common_prefix_Forall, comps_components.
    + apply comps_components.
  - intros ->. by rewrite <- Hdir.
Qed.

Lemma path_join_absolute d fn :
  startswith d "/" = true → startswith (path_join d fn) "/" = true.
Proof.
  intros Hd. unfold path_join. destruct (startswith fn "/") eqn:Hfn; [done|].
  assert (∀ x, startswith (d +:+ x) "/" = true) as Happ.
  { intros x. destruct d as [|c d]; [done|]. rewrite app_cons.
    cbn [startswith] in Hd |- *. destruct (Ascii.eqb "/" c); [|done].
    by destruct (d +:+ x). }
  destruct (_ || _)%bool; apply Happ.
Qed.

Section PosixDetector.
Context {W : Type} `{OS W}.
Variables (directory webhook_url : string) (stage : bool)
          (poll_interval : Z) (processed_dir_name : string).

Abbreviation archive := (processed_dir directory processed_dir_name).
Abbreviation posix_candidates :=
  (candidates Posix.commonpath directory processed_dir_name).

End PosixDetector.

(** ** Entries that cannot be read, on POSIX *)

Section PosixEntries.
Variable commonpath : list string → option string.
Variables (directory webhook_url : string) (stage : bool)
          (processed_dir_name : string).

Abbreviation process_entry :=
  (process_entry commonpath directory webhook_url stage processed_dir_name).

Lemma calm_sleep (w : Posix.world) (p : string) :
  Posix.calm w p →
  ∃ w', Posix.sleep 200 w = (Ok tt, w') ∧ Posix.fs w' !! p = Posix.fs w !! p.
Proof.
  unfold Posix.calm, Posix.sleep. simpl.
  destruct (Posix.others w) as [|[|q nd|q|] rest]; intros Hc; try done;
    eexists; (split; [done|]); simpl; try done.
  - by rewrite lookup_insert_ne.
  - by rewrite lookup_delete_ne.
Qed.

Lemma still_calm (w : Posix.world) (p : string) :
  Posix.still w → Posix.calm w p.
Proof.
  unfold Posix.still, Posix.calm.
  by destruct (Posix.others w) as [|[] ?].
Qed.

(** An entry that is no symbolic link is what [stat] finds. *)
Lemma stat_here (f : gmap string Posix.node) (p : string) nd :
  f !! p = Some nd → (∀ t, nd ≠ Posix.Link t) →
  Posix.stat f p = Ok (p, nd).
Proof.
  intros Hnd Hnl. unfold Posix.stat, Posix.max_links. cbn [Posix.follow].
  rewrite Hnd. destruct nd; [done|done|]. by edestruct Hnl.
Qed.

Lemma stat_dangling (w : Posix.world) (p : string) :
  Posix.dangling w p → Posix.stat (Posix.fs w) p = Raise FileNotFoundError.
Proof.
  intros (t & Hl & Ht). unfold Posix.stat, Posix.max_links.
  cbn [Posix.follow]. by rewrite Hl, Ht.
Qed.

(** An entry of stable size whose read raises ends in the seen set after
    four calls. *)
Lemma stable_unreadable seen fn (w : Posix.world) nd e :
  let full := path_join directory fn in
  in_processed commonpath directory processed_dir_name full = false →
  full ∉ seen →
  Posix.fs w !! full = Some nd →
  (∀ t, nd ≠ Posix.Link t) →
  Posix.calm w full →
  (∀ w', Posix.fs w' !! full = Some nd → Posix.read full w' = (Raise e, w')) →
  is_Exception e = true →
  ∃ size w',
    Posix.getsize full w = (Ok size, w) ∧
    process_entry seen fn w =
      (Ok (seen ∪ {[full]}), w',
       [(Some full, EvGetsize full (Ok size));
        (Some full, EvSleep 200 (Ok tt));
        (Some full, EvGetsize full (Ok size));
        (Some full, EvRead full (Raise e))]).
Proof.
  intros full Hip Hseen Hnd Hnl Hcalm Hread He.
  destruct (calm_sleep w full Hcalm) as (w' & Hsleep & Hfs).
  assert (∃ size, ∀ w2, Posix.fs w2 !! full = Some nd →
                        Posix.getsize full w2 = (Ok size, w2)) as [size Hsize].
  { unfold Posix.getsize.
    destruct nd as [bytes r|r|t]; [| |by edestruct Hnl]; eexists;
      intros w2 Hw2; by rewrite (stat_here _ _ _ Hw2). }
  exists size, w'. split; [by apply Hsize|].
  unfold process_entry. fold full. rewrite Hip, decide_False by done.
  unfold deliver, stable, read_transcript, getsize, sleep, open_read,
    on_entry, try_except, bind, perform, ret. simpl.
  rewrite (Hsize w Hnd), Hsleep. simpl.
  rewrite (Hsize w') by congruence. simpl. rewrite Z.eqb_refl. simpl.
  rewrite (Hread w') by congruence. simpl. by rewrite He.
Qed.
Lemma endswith_lower_txt fn : endswith fn ".txt" = true → is_txt fn = true.
Proof.
  unfold is_txt. rewrite !endswith_iff. intros [pre ->].
  exists (lower pre). by rewrite lower_app.
Qed.


(** C10. A readable file of stable size whose bytes are not valid UTF-8:
    the read raises [UnicodeDecodeError], the iteration ends with the path
    in the seen set, and no POST is made for it, now or in any later pass of
    the loop. *)
Theorem invalid_utf8_marked_seen seen fn (w : Posix.world) bytes :
  let full := path_join directory fn in
  let run := process_entry seen fn w in
  in_processed commonpath directory processed_dir_name full = false →
  full ∉ seen →
  Posix.fs w !! full = Some (Posix.File bytes true) →
  Posix.utf8_valid bytes = false →
  Posix.calm w full →
  trace run =
    (let size := Z.of_nat (String.length bytes) in
     [(Some full, EvGetsize full (Ok size));
      (Some full, EvSleep 200 (Ok tt));
      (Some full, EvGetsize full (Ok size));
      (Some full, EvRead full (Raise UnicodeDecodeError))]) ∧
  outcome run = Ok (seen ∪ {[full]}) ∧
  ∀ n interval (w' : Posix.world),
    Forall (quiet_about full)
      (trace (cycles commonpath directory webhook_url stage interval
                processed_dir_name n (seen ∪ {[full]}) w')).
Proof.
  intros full run Hip Hseen Hnd Hbad Hcalm.
  assert (∀ w', Posix.fs w' !! full = Some (Posix.File bytes true) →
                Posix.read full w' = (Raise UnicodeDecodeError, w')) as Hread.
  { intros w' Hw'. unfold Posix.read, Posix.decode.
    by rewrite (stat_here _ _ _ Hw'), Hbad. }
  destruct (stable_unreadable seen fn w _ _ Hip Hseen Hnd
              ltac:(done) Hcalm Hread eq_refl)
    as (size & w' & Hsize & Hrun).
  unfold Posix.getsize in Hsize. fold full in Hsize.
  rewrite (stat_here _ _ _ Hnd) in Hsize by done.
  injection Hsize as <-.
  unfold run. rewrite Hrun. split_and!; [done|done|].
  intros n interval w2. apply cycles_quiet. set_solver.
Qed.
End PosixEntries.

(** ** The runs, evaluated *)

Ltac in_list := vm_compute; repeat constructor.

(** C1, where the code departs from it.  [standup.TXT] and [standup.txt]
    share the meeting id [standup]; both are posted with success within the
    same second, both renames go to the same archive name and succeed, and
    the archive ends with the second file only: the copy of the first
    delivery has been replaced. *)
Theorem same_second_archive_overwritten :
  let run := demo_run 1 world_same_second in
  let first := demo_root +:+ "/standup.TXT" in
  let second := demo_root +:+ "/standup.txt" in
  let dest := demo_root +:+ "/processed/standup.20240115T093000Z.txt" in
  (Some first, EvRead first (Ok "minutes of Monday")) ∈ trace run ∧
  (Some first, EvRename first dest (Ok tt)) ∈ trace run ∧
  (Some second, EvRead second (Ok "minutes of Tuesday")) ∈ trace run ∧
  (Some second, EvRename second dest (Ok tt)) ∈ trace run ∧
  outcome run = Ok (Looping {[first; second]}) ∧
  Posix.fs (final run) =
    list_to_map [(demo_root, Posix.Dir true);
                 (demo_root +:+ "/processed", Posix.Dir true);
                 (dest, Posix.File "minutes of Tuesday" true)].
Proof. split_and!; try in_list. all: vm_compute; reflexivity. Qed.

(** The archive name is the meeting id, a dot, sixteen characters of
    timestamp that do not depend on the microseconds, and [.txt]. *)
Lemma archive_name_shape mid d :
  archive_name mid d = mid +:+ "." +:+ strftime d +:+ ".txt" ∧
  String.length (strftime d) = 16%nat ∧
  ∀ us, strftime {| year := year d; month := month d; day := day d;
                    hour := hour d; minute := minute d; second := second d;
                    microsecond := us |} = strftime d.
Proof. done. Qed.

(** C4, where the claim fails: the listing of a watch root without read
    permission raises [PermissionError], which no handler catches; the
    exception leaves [watch_and_post] during the first pass of the loop. *)
Lemma listing_error_reaches_caller :
  outcome (demo_run 3 world_locked) = Raise PermissionError ∧
  trace (demo_run 3 world_locked) =
    [(None, EvAbspath "transcripts" (Ok demo_root));
     (None, EvExists demo_root (Ok true));
     (None, EvExists (demo_root +:+ "/processed") (Ok true));
     (None, EvListdir demo_root (Raise PermissionError))].
Proof. split; vm_compute; reflexivity. Qed.

Lemma listing_error_handling_witness :
  let recreate := ensure_dir demo_root world_removed in
  trace recreate =
    [(None, EvExists demo_root (Ok false));
     (None, EvMakedirs demo_root (Ok tt))] ∧
  cycle Posix.commonpath demo_root demo_url true 5 "processed" ∅
    world_removed =
    (Ok ∅, final recreate,
     (None, EvListdir demo_root (Raise FileNotFoundError)) ::
     trace recreate ++ [(None, EvSleep (5 * 1000) (Ok tt))]) ∧
  outcome (watch_loop Posix.commonpath 3 demo_root demo_url true 5 "processed"
             world_locked) = Raise PermissionError.
Proof.
  intros recreate. split; [vm_compute; reflexivity|]. split.
  - assert (os_listdir demo_root world_removed =
            (Raise FileNotFoundError, world_removed)) as Hl
      by (vm_compute; reflexivity).
    destruct (listing_error_handling Posix.commonpath demo_root demo_url true 5
                "processed" 0 0 world_removed ∅ world_removed
                FileNotFoundError world_removed eq_refl eq_refl Hl)
      as (Hfnf & _ & _).
    destruct (Hfnf eq_refl) as [Hok _].
    apply (Hok (final recreate) (trace recreate) (Ok tt) (final recreate));
      vm_compute; reflexivity.
  - assert (os_listdir demo_root world_locked =
            (Raise PermissionError, world_locked)) as Hl
      by (vm_compute; reflexivity).
    destruct (listing_error_handling Posix.commonpath demo_root demo_url true 5
                "processed" 0 2 world_locked ∅ world_locked
                PermissionError world_locked eq_refl eq_refl Hl)
      as (_ & Hother & _).
    apply Hother; discriminate.
Defined.

Lemma unstable_candidate_skipped_witness :
  let full := path_join demo_root "partial.txt" in
  let run := demo_entry ∅ "partial.txt" world_partial in
  probe_failed full (trace run) ∧
  outcome run = Ok ∅ ∧
  Forall (λ x : entry, is_delivery x.2 = false) (trace run).
Proof.
  intros full run.
  assert (probe_failed full (trace run)) as Hp.
  { right. exists 10, 23. split; [lia|]. split; in_list. }
  split; [exact Hp|].
  destruct (unstable_candidate_skipped Posix.commonpath demo_root demo_url true
              "processed" ∅ "partial.txt" world_partial Hp) as (Ho & _ & Hq).
  exact (conj Ho Hq).
Defined.

Lemma seen_path_never_redelivered_witness :
  let p := demo_root +:+ "/kickoff.txt" in
  ∃ later,
    trace (demo_cycles (1 + 2) ∅ world_redrop) =
      trace (demo_cycles 1 ∅ world_redrop) ++ later ∧
    Forall (quiet_about p) later.
Proof.
  intros p.
  apply (seen_path_never_redelivered Posix.commonpath demo_root demo_url true 5
           "processed" ∅ 1 2 world_redrop {[p]} p).
  - vm_compute. reflexivity.
  - set_solver.
Defined.

(** The endpoint answers 500 three times: three passes of the loop send
    the same body three times, rename nothing and leave the file system as
    it was. *)
Example broken_is_retried :
  let run := demo_cycles 3 ∅ world_broken in
  let body := build_payload true "broken" "notes" in
  filter (λ x : entry, is_post x.2 = true ∨ is_rename x.2 = true) (trace run) =
    replicate 3 (Some (demo_root +:+ "/broken.txt"),
                 EvPost demo_url body 10 (demo_answer 500)) ∧
  outcome run = Ok ∅ ∧
  Posix.fs (final run) = Posix.fs world_broken.
Proof. split_and!; vm_compute; reflexivity. Qed.

Lemma failed_post_left_for_retry_witness :
  let full := path_join demo_root "broken.txt" in
  let run := demo_entry ∅ "broken.txt" world_broken in
  let body := build_payload true "broken" "notes" in
  (Some full, EvPost demo_url body 10 (demo_answer 500)) ∈ trace run ∧
  outcome run = Ok ∅ ∧
  Forall (λ x : entry, is_rename x.2 = false) (trace run).
Proof.
  intros full run body.
  assert ((Some full, EvPost demo_url body 10 (demo_answer 500)) ∈ trace run)
    as Hin by in_list.
  split; [exact Hin|].
  destruct (failed_post_left_for_retry Posix.commonpath demo_root demo_url true
              "processed" ∅ "broken.txt" world_broken demo_url body 10
              (demo_answer 500) Hin eq_refl) as (Ho & _ & Hr & _).
  exact (conj Ho Hr).
Defined.

Lemma archive_failure_still_seen_witness :
  let full := path_join demo_root "retro.txt" in
  let run := demo_entry ∅ "retro.txt" world_no_archive in
  let dst := demo_root +:+ "/processed/retro.20240115T093000Z.txt" in
  (Some full, EvRename full dst (Raise FileNotFoundError)) ∈ trace run ∧
  outcome run = Ok (∅ ∪ {[full]}) ∧
  ∀ n w', Forall (quiet_about full) (trace (demo_cycles n (∅ ∪ {[full]}) w')).
Proof.
  intros full run dst.
  assert ((Some full, EvRename full dst (Raise FileNotFoundError)) ∈ trace run)
    as Hmv by in_list.
  assert ((Some full, EvPost demo_url (build_payload true "retro" "notes") 10
             (demo_answer 204)) ∈ trace run) as Hpost by in_list.
  split; [exact Hmv|].
  destruct (archive_failure_still_seen Posix.commonpath demo_root demo_url true 5
              "processed" ∅ "retro.txt" world_no_archive _ _ _ _ _ _
              Hpost eq_refl Hmv eq_refl) as (Ho & _ & Hq).
  exact (conj Ho Hq).
Defined.

Lemma unreadable_candidate_dropped_witness :
  let full := path_join demo_root "secret.txt" in
  let run := demo_entry ∅ "secret.txt" world_unreadable in
  (Some full, EvRead full (Raise PermissionError)) ∈ trace run ∧
  outcome run = Ok (∅ ∪ {[full]}) ∧
  Forall (λ x : entry, is_post x.2 = false ∧ is_rename x.2 = false) (trace run).
Proof.
  intros full run.
  assert ((Some full, EvRead full (Raise PermissionError)) ∈ trace run)
    as Hin by in_list.
  split; [exact Hin|].
  destruct (unreadable_candidate_dropped Posix.commonpath demo_root demo_url true
              5 "processed" ∅ "secret.txt" world_unreadable PermissionError
              Hin eq_refl) as (Ho & _ & Hq & _).
  exact (conj Ho Hq).
Defined.


(** [commonpath] fails on a relative and an absolute path; the entry is
    a candidate all the same. *)
Example failing_commonpath_keeps_entry :
  Posix.commonpath [path_join "inbox" "a.txt"; processed_dir "inbox" "/srv/done"]
    = None ∧
  candidates Posix.commonpath "inbox" "/srv/done" ["a.txt"] ∅ = ["a.txt"].
Proof. split; vm_compute; reflexivity. Qed.




Lemma invalid_utf8_marked_seen_witness :
  let full := path_join demo_root "latin1.txt" in
  let run := demo_entry ∅ "latin1.txt" world_unreadable in
  (Some full, EvRead full (Raise UnicodeDecodeError)) ∈ trace run ∧
  outcome run = Ok (∅ ∪ {[full]}).
Proof.
  intros full run.
  destruct (invalid_utf8_marked_seen Posix.commonpath demo_root demo_url true
              "processed" ∅ "latin1.txt" world_unreadable
              (String (ascii_of_N 233) "t" +:+ String (ascii_of_N 233) ""))
    as (Ht & Ho & _).
  - vm_compute. reflexivity.
  - set_solver.
  - vm_compute. reflexivity.
  - vm_compute. reflexivity.
  - exact I.
  - split; [in_list | exact Ho].
Defined.

Lemma splitext_root_stem_witness : splitext_root "standup.txt" = "standup".
Proof. by apply (splitext_root_stem "standup" "txt"). Defined.

Lemma splitext_root_hidden_witness : splitext_root ".txt" = ".txt".
Proof. by apply (splitext_root_hidden "" "txt"). Defined.

Lemma archive_name_collision_witness :
  archive_name "standup" (demo_time 0 100000) =
    archive_name "standup" (demo_time 0 700000) ↔
  "standup" = "standup" ∧ same_second (demo_time 0 100000) (demo_time 0 700000).
Proof.
  apply (archive_name_collision "standup" "standup" (demo_time 0 100000)
           (demo_time 0 700000)); unfold valid_datetime; simpl; lia.
Defined.

Lemma rename_follows_success_witness :
  let full := path_join demo_root "kickoff.txt" in
  let dst := demo_root +:+ "/processed/kickoff.20240115T093000Z.txt" in
  (Some full, EvRename full dst (Ok tt)) ∈
    trace (demo_entry ∅ "kickoff.txt" world_redrop) ∧
  ∃ size text resp d,
    success (status_code resp) = true ∧
    trace (demo_entry ∅ "kickoff.txt" world_redrop) =
      [(Some full, EvGetsize full (Ok size));
       (Some full, EvSleep 200 (Ok tt));
       (Some full, EvGetsize full (Ok size));
       (Some full, EvRead full (Ok text));
       (Some full, EvPost demo_url (build_payload true "kickoff" text) 10 (Ok resp));
       (Some full, EvUtcnow (Ok d));
       (Some full, EvRename full
                     (path_join (processed_dir demo_root "processed")
                        (archive_name "kickoff" d)) (Ok tt))].
Proof.
  intros full dst.
  assert ((Some full, EvRename full dst (Ok tt)) ∈
            trace (demo_entry ∅ "kickoff.txt" world_redrop)) as Hin by in_list.
  split; [exact Hin|].
  destruct (rename_follows_success Posix.commonpath demo_root demo_url true
              "processed" ∅ "kickoff.txt" world_redrop _ _ _ _ Hin)
    as (size & text & resp & d & Hok & Ht & _).
  exists size, text, resp, d. exact (conj Hok Ht).
Defined.

Lemma seen_set_accounted_witness :
  let seen' : gset string :=
    {[demo_root +:+ "/latin1.txt"; demo_root +:+ "/notes.txt";
      demo_root +:+ "/secret.txt"]} in
  accounted ∅ seen' (trace (demo_cycles 2 ∅ world_unreadable)).
Proof.
  intros seen'.
  apply (seen_set_accounted Posix.commonpath demo_root demo_url true 5
           "processed" 2 ∅ world_unreadable seen').
  vm_compute. reflexivity.
Defined.

Lemma one_post_per_pass_witness :
  (length (posts_for (demo_root +:+ "/b.txt")
             (trace (cycle Posix.commonpath demo_root demo_url true 5
                       "processed" ∅ world_mixed))) ≤ 1)%nat.
Proof.
  apply (one_post_per_pass Posix.commonpath demo_root demo_url true 5
           "processed" ∅ world_mixed mixed_names world_mixed).
  - vm_compute. reflexivity.
  - apply (bool_decide_unpack _). vm_compute. exact I.
  - unfold mixed_names. repeat (apply Forall_cons; split; [reflexivity|]).
    apply Forall_nil_2.
Defined.

Lemma every_post_shaped_witness :
  let full := path_join demo_root "a.TXT" in
  posts_shaped demo_root demo_url true ([], None)
    (trace (demo_run 2 world_mixed)) ∧
  (Some full,
   EvPost demo_url
     {| meeting_id := "a"; title := "a"; transcript := "a";
        attendees := []; stage_flag := true |} 10 (demo_answer 200))
    ∈ trace (demo_run 2 world_mixed).
Proof.
  intros full. split.
  - apply (every_post_shaped Posix.commonpath 2 "transcripts" demo_url true 5
             "processed" world_mixed demo_root world_mixed).
    vm_compute. reflexivity.
  - in_list.
Defined.

Lemma every_file_call_shaped_witness :
  Forall (file_call_shape demo_root "processed")
    (trace (demo_run 2 world_mixed)).
Proof.
  apply (every_file_call_shaped Posix.commonpath 2 "transcripts" demo_url true 5
           "processed" world_mixed demo_root world_mixed).
  vm_compute. reflexivity.
Defined.


Lemma one_listing_one_sleep_per_pass_witness :
  length (filter (λ x, is_listing x = true)
            (trace (demo_cycles 3 ∅ world_broken))) = 3%nat ∧
  length (filter (λ x, is_poll_sleep (5 * 1000) x = true)
            (trace (demo_cycles 3 ∅ world_broken))) = 3%nat.
Proof.
  apply (one_listing_one_sleep_per_pass Posix.commonpath demo_root demo_url true
           5 "processed" 3 ∅ world_broken ∅).
  vm_compute. reflexivity.
Defined.

Lemma post_follows_stable_read_witness :
  let full := path_join demo_root "broken.txt" in
  let run := demo_entry ∅ "broken.txt" world_broken in
  ∃ size text rest,
    trace run =
      [(Some full, EvGetsize full (Ok size));
       (Some full, EvSleep 200 (Ok tt));
       (Some full, EvGetsize full (Ok size));
       (Some full, EvRead full (Ok text));
       (Some full, EvPost demo_url (build_payload true "broken" text) 10
                     (demo_answer 500))]
      ++ rest ∧
    Forall (λ x : entry, is_post x.2 = false) rest.
Proof.
  intros full run.
  assert ((Some full, EvPost demo_url (build_payload true "broken" "notes") 10
             (demo_answer 500)) ∈ trace run) as Hin by in_list.
  destruct (post_follows_stable_read Posix.commonpath demo_root demo_url true
              "processed" ∅ "broken.txt" world_broken _ _ _ _ _ Hin)
    as (size & text & rest & Ht & Hrest & _).
  exists size, text, rest. exact (conj Ht Hrest).
Defined.
